(** * imapsrv: the IMAP lexer and the session operations

    A shallow embedding of [lexer.go] and [session.go].

    - [Module Lexer]: the byte cursor with one byte of lookahead and the
      four scanning paths of [next] (end of line, quoted string, literal,
      unquoted string).  A Go [panic(parseError(..))] is the [Panic]
      outcome of the lexer monad; it carries the cursor as the panic
      leaves it.
    - [Module Session]: [createSession], [selectMailbox] and
      [addMailboxInfo] over an abstract, possibly stateful, Mailstore. *)

From Stdlib Require Import List Bool NArith ZArith Lia.
From Stdlib Require Import Strings.Byte Strings.String.
From Stdlib Require Import DecimalString.
Import ListNotations.

Set Implicit Arguments.

(* ================================================================== *)
(** ** The lexer ([lexer.go]) *)
(* ================================================================== *)

Module Lexer.

Local Open Scope bool_scope.

(** [type lexer struct { reader *bufio.Reader; current byte }].  The
    reader is the finite sequence of bytes not yet read; reading past its
    end is the reader's error ([io.EOF]). *)
Record lexer : Type := mkLexer {
  reader : list byte;
  current : byte
}.

Inductive tokenType : Type :=
| stringTokenType
| eolTokenType
| invalidTokenType.

(** [type token struct { value string; tokType tokenType }]; a Go string
    is a sequence of bytes. *)
Record token : Type := mkToken {
  value : list byte;
  tokType : tokenType
}.

Definition invalidToken : token := mkToken [] invalidTokenType.
Definition eolToken : token := mkToken [] eolTokenType.

(** Ascii codes *)
Definition endOfInput : byte := x00.
Definition cr : byte := x0d.
Definition lf : byte := x0a.
Definition space : byte := x20.
Definition doubleQuote : byte := x22.
Definition plus : byte := x2b.
Definition zero : byte := x30.
Definition nine : byte := x39.
Definition leftCurly : byte := x7b.
Definition rightCurly : byte := x7d.
Definition leftParenthesis : byte := x28.
Definition rightParenthesis : byte := x29.
Definition rightBracket : byte := x5d.
Definition percent : byte := x25.
Definition asterisk : byte := x2a.
Definition backslash : byte := x5c.

Definition astringExceptionsChar : list byte :=
  [space; leftParenthesis; rightParenthesis; rightBracket;
   percent; asterisk; backslash; leftCurly].

Definition tagExceptionsChar : list byte :=
  [space; leftParenthesis; rightParenthesis; rightBracket;
   percent; asterisk; backslash; leftCurly; plus].

Definition listMailboxExceptionsChar : list byte :=
  [space; leftParenthesis; rightParenthesis; rightBracket;
   backslash; leftCurly].

(** [type unquotedLexerFlag uint8] with the four [iota] constants; any
    other value of the flag falls into the [default] branch of [next]. *)
Definition unquotedLexerFlag : Type := N.
Definition asAString : unquotedLexerFlag := 0%N.
Definition asTag : unquotedLexerFlag := 1%N.
Definition asListMailbox : unquotedLexerFlag := 2%N.
Definition asAny : unquotedLexerFlag := 3%N.

(** Unsigned comparison of bytes, as Go compares values of type [byte]. *)
Definition byte_ltb (a b : byte) : bool := (Byte.to_N a <? Byte.to_N b)%N.

Infix "==" := Byte.eqb (at level 70, no associativity).
Infix "<<" := byte_ltb (at level 70, no associativity).

(** The two failures of [strconv.ParseInt]. *)
Inductive numError : Type :=
| ErrSyntax
| ErrRange.

(** Modelled from the spec: the [parseError] type is declared outside the
    shown files; every lexing failure is one fatal parse error.  A value
    records which [panic] site raised it and the data its message is
    formatted from, not the formatted text. *)
Inductive parseError : Type :=
| UnexpectedInQuotedString (c : byte)
| UnexpectedInLiteralLength (c : byte)
| ParseIntFailed (e : numError)
| Expected (name : string)
| ReadFailed.

(** *** The lexer monad: cursor state plus panic *)

Inductive result (A : Type) : Type :=
| Ok (a : A) (l : lexer)
| Panic (e : parseError) (l : lexer).

Arguments Panic {A} e l.

Definition M (A : Type) : Type := lexer -> result A.

Definition ret {A} (a : A) : M A := fun l => Ok a l.

Definition bind {A B} (m : M A) (k : A -> M B) : M B :=
  fun l => match m l with
           | Ok a l' => k a l'
           | Panic e l' => Panic e l'
           end.

Definition panic {A} (e : parseError) : M A := fun l => Panic e l.

Notation "x <- m ;; k" := (bind m (fun x => k))
  (at level 61, m at next level, right associativity).
Notation "m ;;; k" := (bind m (fun _ => k))
  (at level 61, right associativity).

(** The cursor after a failed [ReadByte]: nothing left to read, and
    [current] holds the zero byte that [ReadByte] returns with its error. *)
Definition exhausted : lexer := mkLexer [] x00.

(** [createLexer]: the first character is faked by a space. *)
Definition createLexer (input : list byte) : lexer := mkLexer input space.

(** [consume]: move forward one byte, panic if the read fails. *)
Definition consume : M unit := fun l =>
  match reader l with
  | [] => Panic ReadFailed exhausted
  | b :: rd => Ok tt (mkLexer rd b)
  end.

(** [skipSpace]: a single [if], so at most one byte is skipped. *)
Definition skipSpace : M unit := fun l =>
  if (current l == space) || (current l == lf) then consume l else Ok tt l.

(** [consumeEol]: [for l.current != lf { l.consume() }].  Every iteration
    reads one byte, so the loop is a recursion on the unread input with
    [consume] unfolded in place ([consumeEol_unfold] below folds it back). *)
Fixpoint consumeEol_from (rd : list byte) (cur : byte) : result unit :=
  if cur == lf then Ok tt (mkLexer rd cur)
  else match rd with
       | [] => Panic ReadFailed exhausted
       | b :: rd' => consumeEol_from rd' b
       end.

Definition consumeEol : M unit := fun l => consumeEol_from (reader l) (current l).

(** [qstring]: the loop [for l.current != doubleQuote { switch ... ; l.consume() }],
    then the [consume] that drops the closing quote.  [buffer] is the
    slice being appended to. *)
Fixpoint qstring_from (rd : list byte) (cur : byte) (buffer : list byte) : result token :=
  if cur == doubleQuote then
    (* Ignore the closing quote *)
    (consume ;;; ret (mkToken buffer stringTokenType)) (mkLexer rd cur)
  else if (cur == cr) || (cur == lf) then
    Panic (UnexpectedInQuotedString cur) (mkLexer rd cur)
  else if cur == backslash then
    (* l.consume(); buffer = append(buffer, l.current); l.consume() *)
    match rd with
    | [] => Panic ReadFailed exhausted
    | escaped :: rd1 =>
        match rd1 with
        | [] => Panic ReadFailed exhausted
        | b :: rd2 => qstring_from rd2 b (buffer ++ [escaped])
        end
    end
  else
    (* buffer = append(buffer, l.current); l.consume() *)
    match rd with
    | [] => Panic ReadFailed exhausted
    | b :: rd1 => qstring_from rd1 b (buffer ++ [cur])
    end.

Definition qstring : M token := fun l => qstring_from (reader l) (current l) [].

(** *** [strconv.ParseInt(s, 10, 32)] *)

Definition isDigit (c : byte) : bool := negb (c << zero) && negb (nine << c).

Definition digitValue (c : byte) : Z := Z.of_N (Byte.to_N c) - 48.

(** [strconv.ParseUint] at base 10 and bit size 32, on the text after the
    sign: the digits are accumulated from left to right; a byte that is not
    a decimal digit is a syntax error, and the scan stops with a range error
    as soon as the number exceeds 2^32 - 1.  [n] is the number read so far. *)
Fixpoint ParseUint32_from (s : list byte) (n : Z) : Z + numError :=
  match s with
  | [] => inl n
  | c :: s' =>
      if isDigit c then
        let n1 := (10 * n + digitValue c)%Z in
        if (2 ^ 32 - 1 <? n1)%Z then inr ErrRange else ParseUint32_from s' n1
      else inr ErrSyntax
  end.

(** Go's [strconv.ParseInt] at base 10 and bit size 32, after its
    documentation and its code: the empty text is a syntax error; a
    leading sign is picked off; the rest, which must not be empty, goes
    through [ParseUint]; a magnitude of 2^31 or more (more than 2^31 after
    a minus sign) is a range error. *)
Definition ParseInt32 (s : list byte) : Z + numError :=
  match s with
  | [] => inr ErrSyntax
  | c :: s' =>
      let '(neg, digits) :=
        if c == x2b then (false, s')
        else if c == x2d then (true, s')
        else (false, s) in
      match digits with
      | [] => inr ErrSyntax
      | _ :: _ =>
          match ParseUint32_from digits 0 with
          | inr err => inr err
          | inl un =>
              if negb neg && (2 ^ 31 <=? un)%Z then inr ErrRange
              else if neg && (2 ^ 31 <? un)%Z then inr ErrRange
              else inl (if neg then - un else un)%Z
          end
      end
  end.

(** [literal], first loop: collect the digits up to the right curly. *)
Fixpoint literalLength_from (rd : list byte) (cur : byte) (lengthBuffer : list byte)
  : result (list byte) :=
  if cur == rightCurly then Ok lengthBuffer (mkLexer rd cur)
  else if (cur << zero) || (nine << cur) then
    Panic (UnexpectedInLiteralLength cur) (mkLexer rd cur)
  else match rd with
       | [] => Panic ReadFailed exhausted
       | b :: rd' => literalLength_from rd' b (lengthBuffer ++ [cur])
       end.

(** [literal], second loop:
    [for length > 0 { buffer = append(buffer, l.current); length -= 1; l.consume() }]. *)
Fixpoint literalBody_from (rd : list byte) (cur : byte) (length : Z) (buffer : list byte)
  : result (list byte) :=
  if (0 <? length)%Z then
    match rd with
    | [] => Panic ReadFailed exhausted
    | b :: rd' => literalBody_from rd' b (length - 1)%Z (buffer ++ [cur])
    end
  else Ok buffer (mkLexer rd cur).

Definition literal : M token :=
  lengthBuffer <- (fun l => literalLength_from (reader l) (current l) []) ;;
  (* Extract the literal length as an int *)
  match ParseInt32 lengthBuffer with
  | inr err => panic (ParseIntFailed err)
  | inl length =>
      (* Consume the right curly and the newline that should follow *)
      consumeEol ;;;
      buffer <- (fun l => literalBody_from (reader l) (current l) length []) ;;
      ret (mkToken buffer stringTokenType)
  end.

(** [bytes.IndexByte]: the index of the first [c] in [s], or -1. *)
Fixpoint IndexByte (s : list byte) (c : byte) : Z :=
  match s with
  | [] => (-1)%Z
  | b :: s' => if b == c then 0%Z
               else let i := IndexByte s' c in
                    if (i =? -1)%Z then (-1)%Z else (i + 1)%Z
  end.

(** [nonquoted]: the scanning loop, then the check that characters were
    consumed. *)
Fixpoint nonquoted_from (exceptions : list byte) (rd : list byte) (cur : byte)
  (buffer : list byte) : result (list byte) :=
  if (space << cur) && (-1 =? IndexByte exceptions cur)%Z && (cur << x7f) then
    match rd with
    | [] => Panic ReadFailed exhausted
    | b :: rd' => nonquoted_from exceptions rd' b (buffer ++ [cur])
    end
  else Ok buffer (mkLexer rd cur).

Definition nonquoted (name : string) (exceptions : list byte) : M token :=
  buffer <- (fun l => nonquoted_from exceptions (reader l) (current l) []) ;;
  if (List.length buffer =? 0)%nat then panic (Expected name)
  else ret (mkToken buffer stringTokenType).

Definition astring : M token := nonquoted "ASTRING" astringExceptionsChar.
Definition tagString : M token := nonquoted "TAG" tagExceptionsChar.
Definition listMailbox : M token := nonquoted "LIST-MAILBOX" listMailboxExceptionsChar.
(** [any] passes a nil slice of exceptions. *)
Definition any : M token := nonquoted "ANY" [].

(** The inner [switch flag] of [next]: lex an unquoted string. *)
Definition unquoted (flag : unquotedLexerFlag) : M token :=
  if (flag =? asAny)%N then any
  else if (flag =? asTag)%N then tagString
  else if (flag =? asListMailbox)%N then listMailbox
  else astring.

(** [next]: get the next token. *)
Definition next (flag : unquotedLexerFlag) : M token :=
  skipSpace ;;;
  fun l =>
    (if current l == cr then consumeEol ;;; ret eolToken
     else if current l == doubleQuote then consume ;;; qstring
     else if current l == leftCurly then consume ;;; literal
     else unquoted flag) l.

End Lexer.

(* ================================================================== *)
(** ** The session ([session.go]) *)
(* ================================================================== *)

Module Session.

Local Open Scope string_scope.

(** IMAP session states *)
Inductive state : Type :=
| notAuthenticated
| authenticated
| selected.

(** A non-nil value of Go's [error] interface; [nil] is [None] in an
    [option error]. *)
Definition error : Type := string.

(** An IMAP mailbox; [Id] is an [int64], on which no arithmetic is done. *)
Record Mailbox : Type := mkMailbox {
  Name : string;
  Id : Z
}.

(** The [Mailstore] interface.  An implementation may keep state of its
    own, so every method takes the store's state [W] and returns the state
    it leaves.  A method returns both of Go's results: the value and the
    error. *)
Record Mailstore (W : Type) : Type := mkMailstore {
  GetMailbox : string -> W -> (option Mailbox * option error) * W;
  FirstUnseen : Z -> W -> (Z * option error) * W;
  TotalMessages : Z -> W -> (Z * option error) * W;
  RecentMessages : Z -> W -> (Z * option error) * W;
  NextUid : Z -> W -> (Z * option error) * W
}.

(** Modelled from the spec: the [Config] type is declared outside the
    shown files; the session reaches the Mailstore through its [Store]
    field. *)
Record Config (W : Type) : Type := mkConfig {
  Store : Mailstore W
}.

(** An IMAP session; [mailbox] is a [*Mailbox], [None] when nil. *)
Record session (W : Type) : Type := mkSession {
  id : Z;
  st : state;
  mailbox : option Mailbox;
  config : Config W
}.

(** Modelled from the spec: the [response] type and its [extra] method
    are declared outside the shown files; a response is a tag, a message
    and an ordered sequence of untagged lines, and [extra] appends one
    untagged line. *)
Record response : Type := mkResponse {
  tag : string;
  message : string;
  untagged : list string
}.

Definition extra (line : string) (r : response) : response :=
  mkResponse (tag r) (message r) (untagged r ++ [line]).

(** [%d] and [fmt.Sprint] of an integer: its decimal digits, with a
    minus sign when negative. *)
Definition formatInt (n : Z) : string := NilZero.string_of_int (Z.to_int n).

(** What a call leaves behind: it returns, or it dereferences a nil
    pointer and panics. *)
Inductive outcome (A : Type) : Type :=
| Returned (a : A)
| NilDereference.

Arguments NilDereference {A}.

Section WithStore.

Variable W : Type.

(** Create a new IMAP session *)
Definition createSession (id : Z) (config : Config W) : session W :=
  mkSession id notAuthenticated None config.

(** Select a mailbox - returns true if the mailbox exists *)
Definition selectMailbox (name : string) (s : session W) (w : W)
  : (bool * option error) * session W * W :=
  let mailstore := Store (config s) in
  (* Lookup the mailbox *)
  let '((mbox, err), w') := GetMailbox mailstore name w in
  match err with
  | Some e => ((false, Some e), s, w')
  | None =>
      match mbox with
      | None => ((false, None), s, w')
      | Some m =>
          (* Make note of the mailbox *)
          ((true, None), mkSession (id s) (st s) (Some m) (config s), w')
      end
  end.

(** Add mailbox information to the given response.  [s.mailbox.Id] is
    evaluated before the first Mailstore call, so a session without a
    mailbox panics there. *)
Definition addMailboxInfo (s : session W) (resp : response) (w : W)
  : outcome (option error) * response * W :=
  let mailstore := Store (config s) in
  match mailbox s with
  | None => (NilDereference, resp, w)
  | Some mbox =>
      let '((firstUnseen, err), w1) := FirstUnseen mailstore (Id mbox) w in
      match err with
      | Some e => (Returned (Some e), resp, w1)
      | None =>
      let '((totalMessages, err), w2) := TotalMessages mailstore (Id mbox) w1 in
      match err with
      | Some e => (Returned (Some e), resp, w2)
      | None =>
      let '((recentMessages, err), w3) := RecentMessages mailstore (Id mbox) w2 in
      match err with
      | Some e => (Returned (Some e), resp, w3)
      | None =>
      let '((nextUid, err), w4) := NextUid mailstore (Id mbox) w3 in
      match err with
      | Some e => (Returned (Some e), resp, w4)
      | None =>
          let resp := extra (formatInt totalMessages ++ " EXISTS") resp in
          let resp := extra (formatInt recentMessages ++ " RECENT") resp in
          let resp := extra ("OK [UNSEEN " ++ formatInt firstUnseen ++ "] Message "
                             ++ formatInt firstUnseen ++ " is first unseen") resp in
          let resp := extra ("OK [UIDVALIDITY " ++ formatInt (Id mbox) ++ "] UIDs valid") resp in
          let resp := extra ("OK [UIDNEXT " ++ formatInt nextUid ++ "] Predicted next UID") resp in
          (Returned None, resp, w4)
      end end end end
  end.

(** *** Sequences of session operations *)

Inductive op : Type :=
| SelectMailbox (name : string)
| AddMailboxInfo (resp : response).

(** What the caller of an operation observes. *)
Inductive event : Type :=
| SelectReturned (found : bool) (err : option error)
| AddInfoDone (o : outcome (option error)) (resp : response).

(** One operation on the session [s] with the store in state [w].
    [addMailboxInfo] only reads the session, also when it panics. *)
Definition step (o : op) (s : session W) (w : W) : event * session W * W :=
  match o with
  | SelectMailbox name =>
      let '((found, err), s', w') := selectMailbox name s w in
      (SelectReturned found err, s', w')
  | AddMailboxInfo resp =>
      let '(r, resp', w') := addMailboxInfo s resp w in
      (AddInfoDone r resp', s, w')
  end.

Fixpoint run (ops : list op) (s : session W) (w : W) : list event * session W * W :=
  match ops with
  | [] => ([], s, w)
  | o :: ops' =>
      let '(ev, s1, w1) := step o s w in
      let '(evs, s2, w2) := run ops' s1 w1 in
      (ev :: evs, s2, w2)
  end.

End WithStore.

(** The parts of what [run] returns. *)
Definition eventsOf {W : Type} (r : list event * session W * W) : list event := fst (fst r).
Definition sessionOf {W : Type} (r : list event * session W * W) : session W := snd (fst r).

(** The parts of what a Mailstore query returns: its value, its error and
    the store state it leaves. *)
Definition errOf {W A : Type} (q : (A * option error) * W) : option error := snd (fst q).
Definition valOf {W A : Type} (q : (A * option error) * W) : A := fst (fst q).
Definition storeOf {W A : Type} (q : (A * option error) * W) : W := snd q.

End Session.

(* ================================================================== *)
(** ** Vocabulary of the statements *)
(* ================================================================== *)

Module Vocabulary.

Import Lexer.
Local Open Scope string_scope.

(** The bytes an unquoted scan never stops at for their value alone:
    strictly above space and strictly below DEL. *)
Definition printable (c : byte) : Prop :=
  (Byte.to_N space < Byte.to_N c)%N /\ (Byte.to_N c < Byte.to_N x7f)%N.

(** The number a run of decimal digits denotes. *)
Definition decimalValue (s : list byte) : Z :=
  fold_left (fun n c => 10 * n + digitValue c)%Z s 0%Z.

(** The exception set and the name that [unquoted] hands to [nonquoted]
    for a flag. *)
Definition exceptionsOf (flag : unquotedLexerFlag) : list byte :=
  if (flag =? asAny)%N then []
  else if (flag =? asTag)%N then tagExceptionsChar
  else if (flag =? asListMailbox)%N then listMailboxExceptionsChar
  else astringExceptionsChar.

Definition nameOf (flag : unquotedLexerFlag) : string :=
  if (flag =? asAny)%N then "ANY"
  else if (flag =? asTag)%N then "TAG"
  else if (flag =? asListMailbox)%N then "LIST-MAILBOX"
  else "ASTRING".

(** The content of a quoted string, read as the spec describes it: a
    sequence of plain bytes and of escapes, an escape being a backslash
    and the byte after it, whatever that byte is. *)
Inductive qchar : Type :=
| Plain (c : byte)
| Escaped (c : byte).

Definition encode (q : qchar) : list byte :=
  match q with
  | Plain c => [c]
  | Escaped c => [backslash; c]
  end.

Definition decode (q : qchar) : byte :=
  match q with
  | Plain c => c
  | Escaped c => c
  end.

(** A plain byte is neither the closing quote, nor a bare CR or LF, nor
    the backslash that starts an escape. *)
Definition wellFormed (q : qchar) : Prop :=
  match q with
  | Plain c => c <> doubleQuote /\ c <> cr /\ c <> lf /\ c <> backslash
  | Escaped _ => True
  end.

(** The bytes still ahead of the lexer: the lookahead byte, then what is
    unread. *)
Definition stream (l : lexer) : list byte := current l :: reader l.

(** A byte that the unquoted scan takes under an exception set. *)
Definition accepted (exceptions : list byte) (c : byte) : Prop :=
  printable c /\ ~ In c exceptions.

(** [l'] lies strictly ahead of [l]: its lookahead byte and its unread
    input are a suffix of the unread input of [l]. *)
Definition advanced (l l' : lexer) : Prop :=
  exists pre : list byte, reader l = (pre ++ stream l')%list.

(** [l'] is not behind [l]: what is ahead of [l'] is a suffix of what is
    ahead of [l]. *)
Definition notBehind (l l' : lexer) : Prop :=
  exists pre : list byte, stream l = (pre ++ stream l')%list.

(** A byte string written as a quoted string: a backslash goes before
    every double quote, backslash, CR and LF. *)
Definition needsEscape (c : byte) : bool :=
  (c == doubleQuote) || (c == backslash) || (c == cr) || (c == lf).

Definition quoteChar (c : byte) : qchar :=
  if needsEscape c then Escaped c else Plain c.

Definition quote (v : list byte) : list byte :=
  doubleQuote :: (flat_map (fun c => encode (quoteChar c)) v ++ [doubleQuote])%list.


End Vocabulary.

(* ================================================================== *)
(** ** Concrete inputs *)
(* ================================================================== *)

Module Fixtures.

Import Lexer Session.
Local Open Scope string_scope.

Definition bytes (s : string) : list byte := list_byte_of_string s.

(** [{11}\r\nhello world] *)
Definition helloLiteral : list byte :=
  bytes "{11}" ++ [cr; lf] ++ bytes "hello world".

(** The word plain between two double quotes. *)
Definition quotedPlain : list byte :=
  [doubleQuote] ++ bytes "plain" ++ [doubleQuote].





(** A Mailstore without state that answers every call the same way. *)
Definition constStore (mbox : option Mailbox * option error)
  (firstUnseen totalMessages recentMessages nextUid : Z * option error)
  : Mailstore unit :=
  mkMailstore
    (fun _ w => (mbox, w))
    (fun _ w => (firstUnseen, w))
    (fun _ w => (totalMessages, w))
    (fun _ w => (recentMessages, w))
    (fun _ w => (nextUid, w)).

Definition inbox : Mailbox := mkMailbox "inbox" 1.

(** [TestMailstore] of [command_test.go]: the dummy mailbox, first unseen
    4, total 8, recent 4, next UID 9. *)
Definition TestMailstore : Mailstore unit :=
  constStore (Some inbox, None) (4%Z, None) (8%Z, None) (4%Z, None) (9%Z, None).

Definition testConfig : Config unit := mkConfig TestMailstore.

(** A store that knows no mailbox, and one whose lookup fails. *)
Definition emptyStore : Mailstore unit :=
  constStore (None, None) (0%Z, None) (0%Z, None) (0%Z, None) (0%Z, None).

Definition brokenStore : Mailstore unit :=
  constStore (None, Some "store offline") (0%Z, None) (0%Z, None) (0%Z, None) (0%Z, None).

(** A store whose third query, [RecentMessages], fails. *)
Definition failingRecent : Mailstore unit :=
  constStore (Some inbox, None) (4%Z, None) (8%Z, None) (0%Z, Some "recent failed") (9%Z, None).

Definition emptyResponse : response := mkResponse "A00002" "SELECT completed" [].

(** The mailbox of [command_test.go], which carries its path as well. *)
Record ListedMailbox : Type := mkListedMailbox {
  ListedName : string;
  ListedPath : list string;
  ListedId : Z
}.

(** [TestMailstore.GetMailboxes] of [command_test.go]: the dummy mailboxes
    under a path. *)
Definition GetMailboxes (path : list string) : list ListedMailbox * option error :=
  if (List.length path =? 0)%nat then
    (* Root *)
    ([mkListedMailbox "inbox" ["inbox"] 1; mkListedMailbox "spam" ["spam"] 2], None)
  else if ((List.length path =? 1)%nat && String.eqb (nth 0 path "") "inbox")%bool then
    ([mkListedMailbox "starred" ["inbox"; "stared"] 3], None)
  else ([], None).

End Fixtures.

(* ================================================================== *)
(** ** Facts about the lexer *)
(* ================================================================== *)

Module LexerFacts.

Import Lexer Vocabulary Fixtures.
Local Open Scope bool_scope.

(** *** Bytes *)

Lemma eqb_refl (c : byte) : (c == c) = true.
Proof. now apply Byte.byte_dec_lb. Qed.

Lemma eqb_neq (a b : byte) : a <> b -> (a == b) = false.
Proof.
  intros Hne. destruct (a == b) eqn:E; [|reflexivity].
  now apply Byte.byte_dec_bl in E.
Qed.

Lemma eqb_true (a b : byte) : (a == b) = true -> a = b.
Proof. apply Byte.byte_dec_bl. Qed.

Lemma byte_ltb_lt (a b : byte) : (a << b) = true <-> (Byte.to_N a < Byte.to_N b)%N.
Proof. unfold byte_ltb. apply N.ltb_lt. Qed.

Lemma byte_ltb_ge (a b : byte) : (a << b) = false <-> (Byte.to_N b <= Byte.to_N a)%N.
Proof. unfold byte_ltb. apply N.ltb_ge. Qed.

(** Two bytes with different codes are different bytes. *)
Lemma eqb_code (a b : byte) : Byte.to_N a <> Byte.to_N b -> (a == b) = false.
Proof. intros H. apply eqb_neq. congruence. Qed.

(** *** The loops, folded back onto [consume]

    Each loop of the source is one test of its condition followed, when
    the test succeeds, by the body and the loop again. *)

Lemma consumeEol_unfold (l : lexer) :
  consumeEol l = if current l == lf then Ok tt l else (consume ;;; consumeEol) l.
Proof.
  destruct l as [rd cur]. unfold consumeEol, bind, consume. simpl.
  destruct rd; simpl; destruct (cur == lf); reflexivity.
Qed.

Lemma nonquoted_from_unfold (exceptions : list byte) (l : lexer) (buffer : list byte) :
  nonquoted_from exceptions (reader l) (current l) buffer =
  if (space << current l) && (-1 =? IndexByte exceptions (current l))%Z && (current l << x7f)
  then (consume ;;; fun l' =>
          nonquoted_from exceptions (reader l') (current l') (buffer ++ [current l])) l
  else Ok buffer l.
Proof.
  destruct l as [rd cur]. unfold bind, consume. simpl.
  destruct rd; simpl; destruct (_ && _ && _); reflexivity.
Qed.

Lemma literalBody_from_unfold (l : lexer) (length : Z) (buffer : list byte) :
  literalBody_from (reader l) (current l) length buffer =
  if (0 <? length)%Z
  then (consume ;;; fun l' =>
          literalBody_from (reader l') (current l') (length - 1) (buffer ++ [current l])) l
  else Ok buffer l.
Proof.
  destruct l as [rd cur]. unfold bind, consume. simpl.
  destruct rd; simpl; destruct (0 <? length)%Z; reflexivity.
Qed.

Lemma literalLength_from_unfold (l : lexer) (lengthBuffer : list byte) :
  literalLength_from (reader l) (current l) lengthBuffer =
  if current l == rightCurly then Ok lengthBuffer l
  else if (current l << zero) || (nine << current l)
       then Panic (UnexpectedInLiteralLength (current l)) l
       else (consume ;;; fun l' =>
               literalLength_from (reader l') (current l') (lengthBuffer ++ [current l])) l.
Proof.
  destruct l as [rd cur]. unfold bind, consume. simpl.
  destruct rd; simpl; destruct (cur == rightCurly); try reflexivity;
    destruct (_ || _); reflexivity.
Qed.

Lemma qstring_from_unfold (l : lexer) (buffer : list byte) :
  qstring_from (reader l) (current l) buffer =
  if current l == doubleQuote
  then (consume ;;; ret (mkToken buffer stringTokenType)) l
  else if (current l == cr) || (current l == lf)
       then Panic (UnexpectedInQuotedString (current l)) l
       else if current l == backslash
            then (consume ;;; fun l1 =>
                    (consume ;;; fun l2 =>
                       qstring_from (reader l2) (current l2) (buffer ++ [current l1])) l1) l
            else (consume ;;; fun l1 =>
                    qstring_from (reader l1) (current l1) (buffer ++ [current l])) l.
Proof.
  destruct l as [rd cur]. unfold bind, consume. simpl.
  destruct rd as [|b [|b' rd]]; simpl;
    destruct (cur == doubleQuote); try reflexivity;
    destruct (_ || _); try reflexivity;
    destruct (cur == backslash); reflexivity.
Qed.

(** *** The unquoted scan *)

Lemma IndexByte_lower (s : list byte) (c : byte) : (-1 <= IndexByte s c)%Z.
Proof.
  induction s as [|b s IH]; simpl; [lia|].
  destruct (b == c); [lia|].
  destruct (IndexByte s c =? -1)%Z; lia.
Qed.

Lemma IndexByte_In (s : list byte) (c : byte) : In c s -> IndexByte s c <> (-1)%Z.
Proof.
  induction s as [|b s IH]; simpl; [tauto|].
  intros [-> | Hin].
  - rewrite eqb_refl. lia.
  - destruct (b == c); [lia|].
    specialize (IH Hin). pose proof (IndexByte_lower s c).
    destruct (IndexByte s c =? -1)%Z eqn:E; [apply Z.eqb_eq in E; lia | lia].
Qed.

Lemma IndexByte_not_In (s : list byte) (c : byte) : ~ In c s -> IndexByte s c = (-1)%Z.
Proof.
  induction s as [|b s IH]; simpl; [reflexivity|].
  intros Hn. rewrite eqb_neq by tauto.
  rewrite IH by tauto. reflexivity.
Qed.

(** [unquoted] is [nonquoted] at the name and the exception set of the flag. *)
Lemma unquoted_nonquoted (flag : unquotedLexerFlag) :
  unquoted flag = nonquoted (nameOf flag) (exceptionsOf flag).
Proof.
  unfold unquoted, nameOf, exceptionsOf.
  destruct (flag =? asAny)%N; [reflexivity|].
  destruct (flag =? asTag)%N; [reflexivity|].
  destruct (flag =? asListMailbox)%N; reflexivity.
Qed.

(** A scan that starts on a byte it cannot take collects nothing and panics
    where it stands. *)
Lemma nonquoted_stops_at_once (name : string) (exceptions : list byte) (l : lexer) :
  (space << current l) && (-1 =? IndexByte exceptions (current l))%Z && (current l << x7f) = false ->
  nonquoted name exceptions l = Panic (Expected name) l.
Proof.
  intros Hc. unfold nonquoted, bind.
  rewrite nonquoted_from_unfold, Hc. reflexivity.
Qed.

Lemma nonquoted_value_nonempty (name : string) (exceptions : list byte) (l l' : lexer) (tok : token) :
  nonquoted name exceptions l = Ok tok l' -> value tok <> [].
Proof.
  unfold nonquoted, bind.
  destruct (nonquoted_from exceptions (reader l) (current l) []) as [buffer l0 | e l0];
    [|discriminate].
  destruct buffer as [|b buffer]; simpl; [discriminate|].
  unfold ret. intros H. injection H as <- _. simpl. discriminate.
Qed.

(** C8. In every lexing mode, an unquoted scan that starts on a byte at or
    below space, on a byte at or above DEL, or on a byte of the mode's
    exception set signals a parse error ([Expected] the mode's name, the
    cursor left where it stood); and an unquoted scan never returns a token
    with an empty value. *)
Theorem unquoted_rejects_empty_token :
  forall (flag : unquotedLexerFlag) (l : lexer),
    ((Byte.to_N (current l) <= Byte.to_N space)%N \/
     (Byte.to_N x7f <= Byte.to_N (current l))%N \/
     In (current l) (exceptionsOf flag) ->
     unquoted flag l = Panic (Expected (nameOf flag)) l)
    /\ (forall (tok : token) (l' : lexer),
          unquoted flag l = Ok tok l' -> value tok <> []).
Proof.
  intros flag l. rewrite unquoted_nonquoted. split.
  - intros Hbad. apply nonquoted_stops_at_once.
    destruct Hbad as [Hlow | [Hhigh | Hin]].
    + apply byte_ltb_ge in Hlow. rewrite Hlow. reflexivity.
    + apply byte_ltb_ge in Hhigh. rewrite Hhigh. apply andb_false_r.
    + apply IndexByte_In in Hin.
      assert (E : (-1 =? IndexByte (exceptionsOf flag) (current l))%Z = false)
        by (apply Z.eqb_neq; lia).
      rewrite E, andb_false_r. reflexivity.
  - intros tok l'. apply nonquoted_value_nonempty.
Qed.

(** The scan in [asTag] mode on a plus sign, a byte of the tag exception
    set only. *)
Lemma unquoted_rejects_empty_token_witness :
  unquoted asTag (mkLexer (bytes "OK") plus) = Panic (Expected "TAG") (mkLexer (bytes "OK") plus).
Proof.
  apply (unquoted_rejects_empty_token asTag (mkLexer (bytes "OK") plus)).
  right; right. simpl. tauto.
Defined.

(** The loop condition of [nonquoted] holds exactly on the printable bytes
    outside the exception set. *)
Lemma scan_condition (exceptions : list byte) (c : byte) :
  (space << c) && (-1 =? IndexByte exceptions c)%Z && (c << x7f) = true
  <-> printable c /\ ~ In c exceptions.
Proof.
  unfold printable. rewrite !andb_true_iff, !byte_ltb_lt, Z.eqb_eq. split.
  - intros [[Hlo Hidx] Hhi]. repeat split; try assumption.
    intros Hin. apply IndexByte_In in Hin. lia.
  - intros [[Hlo Hhi] Hn]. repeat split; try assumption.
    symmetry. now apply IndexByte_not_In.
Qed.

Lemma nonquoted_from_stop (exceptions rd : list byte) (c : byte) (buffer : list byte) :
  ~ (printable c /\ ~ In c exceptions) ->
  nonquoted_from exceptions rd c buffer = Ok buffer (mkLexer rd c).
Proof.
  intros Hc. rewrite <- scan_condition in Hc. apply not_true_is_false in Hc.
  destruct rd; cbn [nonquoted_from]; rewrite Hc; reflexivity.
Qed.

Lemma nonquoted_from_step (exceptions rd : list byte) (c b : byte) (buffer : list byte) :
  printable c /\ ~ In c exceptions ->
  nonquoted_from exceptions (b :: rd) c buffer
  = nonquoted_from exceptions rd b (buffer ++ [c]).
Proof.
  intros Hc. rewrite <- scan_condition in Hc. cbn [nonquoted_from]. rewrite Hc. reflexivity.
Qed.

(** The scan takes a run of bytes it accepts and stops on the first byte
    it does not accept, which stays in [current]. *)
Lemma nonquoted_from_run (exceptions : list byte) (t : byte) (rest : list byte) :
  ~ (printable t /\ ~ In t exceptions) ->
  forall (run : list byte) (c : byte) (buffer : list byte),
    Forall (fun b => printable b /\ ~ In b exceptions) (c :: run) ->
    nonquoted_from exceptions (run ++ t :: rest) c buffer
    = Ok (buffer ++ c :: run) (mkLexer rest t).
Proof.
  intros Ht. induction run as [|c' run IH]; intros c buffer Hall;
    inversion Hall as [|? ? Hc Hrest]; subst; cbn [app];
    rewrite nonquoted_from_step by exact Hc.
  - now apply nonquoted_from_stop.
  - rewrite (IH c' (buffer ++ [c]) Hrest), <- app_assoc. reflexivity.
Qed.

Lemma printable_not_cr (c : byte) : printable c -> (c == cr) = false.
Proof.
  intros [Hlo _]. apply eqb_code. intros E. rewrite E in Hlo.
  vm_compute in Hlo. discriminate.
Qed.


Lemma printable_code (c : byte) :
  (Byte.to_N space <? Byte.to_N c)%N && (Byte.to_N c <? Byte.to_N x7f)%N = true -> printable c.
Proof.
  intros H. apply andb_true_iff in H. destruct H as [H1 H2].
  split; now apply N.ltb_lt.
Qed.



(** A run that reaches the end of the stream is lost to the failed read. *)
Lemma next_asAny_at_end_of_input :
  next asAny (createLexer (bytes "abc")) = Panic ReadFailed exhausted.
Proof. reflexivity. Qed.

(** The scan of a tag stops at the space: [A00001 CAPABILITY]. *)
Lemma next_asTag_stops_at_space :
  next asTag (createLexer (bytes "A00001 CAPABILITY"))
  = Ok (mkToken (bytes "A00001") stringTokenType) (mkLexer (bytes "CAPABILITY") space).
Proof. reflexivity. Qed.

(** *** The literal *)

Lemma isDigit_code (c : byte) :
  isDigit c = true <-> (48 <= Byte.to_N c <= 57)%N.
Proof.
  unfold isDigit. rewrite andb_true_iff, !negb_true_iff, !byte_ltb_ge.
  change (Byte.to_N zero) with 48%N. change (Byte.to_N nine) with 57%N. tauto.
Qed.

Lemma isDigit_not (c other : byte) :
  isDigit c = true -> (Byte.to_N other < 48 \/ 57 < Byte.to_N other)%N -> (c == other) = false.
Proof.
  intros Hd Ho. apply isDigit_code in Hd. apply eqb_code. lia.
Qed.

Lemma literalLength_from_stop (rd lengthBuffer : list byte) :
  literalLength_from rd rightCurly lengthBuffer = Ok lengthBuffer (mkLexer rd rightCurly).
Proof. destruct rd; reflexivity. Qed.

Lemma literalLength_from_step (rd lengthBuffer : list byte) (c b : byte) :
  isDigit c = true ->
  literalLength_from (b :: rd) c lengthBuffer = literalLength_from rd b (lengthBuffer ++ [c]).
Proof.
  intros Hd. cbn [literalLength_from].
  rewrite (@isDigit_not c rightCurly Hd) by (right; vm_compute; reflexivity).
  unfold isDigit in Hd. apply andb_true_iff in Hd. destruct Hd as [H1 H2].
  apply negb_true_iff in H1, H2. rewrite H1, H2. reflexivity.
Qed.

(** The first loop of [literal] collects a run of digits and stops with the
    cursor on the right curly. *)
Lemma literalLength_from_digits (rest : list byte) :
  forall (digits : list byte) (cur : byte) (rd lengthBuffer : list byte),
    Forall (fun c => isDigit c = true) digits ->
    cur :: rd = digits ++ rightCurly :: rest ->
    literalLength_from rd cur lengthBuffer
    = Ok (lengthBuffer ++ digits) (mkLexer rest rightCurly).
Proof.
  induction digits as [|d digits IH]; intros cur rd lengthBuffer Hall Heq.
  - injection Heq as -> ->. rewrite app_nil_r. apply literalLength_from_stop.
  - injection Heq as -> ->. inversion Hall as [|? ? Hd Hds]; subst.
    destruct (digits ++ rightCurly :: rest) as [|b rd'] eqn:E.
    + symmetry in E. now apply app_cons_not_nil in E.
    + rewrite literalLength_from_step by exact Hd.
      rewrite (IH b rd' (lengthBuffer ++ [d]) Hds eq_refl), <- app_assoc.
      reflexivity.
Qed.

Lemma digitValue_range (c : byte) : isDigit c = true -> (0 <= digitValue c <= 9)%Z.
Proof. intros Hd. apply isDigit_code in Hd. unfold digitValue. lia. Qed.

(** Reading more digits never makes the number smaller. *)
Lemma fold_digits_monotone (digits : list byte) :
  Forall (fun c => isDigit c = true) digits ->
  forall n : Z, (0 <= n)%Z ->
    (n <= fold_left (fun n c => 10 * n + digitValue c) digits n)%Z.
Proof.
  induction 1 as [|d digits Hd _ IH]; intros n Hn; cbn [fold_left]; [lia|].
  apply digitValue_range in Hd.
  specialize (IH (10 * n + digitValue d)%Z). lia.
Qed.

(** On a run of digits the left-to-right scan of [ParseUint] returns the
    number the run denotes, or a range error when it exceeds 2^32 - 1. *)
Lemma ParseUint32_from_digits (digits : list byte) :
  Forall (fun c => isDigit c = true) digits ->
  forall n : Z, (0 <= n <= 2 ^ 32 - 1)%Z ->
    ParseUint32_from digits n
    = if (fold_left (fun n c => 10 * n + digitValue c) digits n <=? 2 ^ 32 - 1)%Z
      then inl (fold_left (fun n c => 10 * n + digitValue c)%Z digits n)
      else inr ErrRange.
Proof.
  induction 1 as [|d digits Hd Hds IH]; intros n Hn; cbn [ParseUint32_from fold_left].
  - replace (n <=? 2 ^ 32 - 1)%Z with true by (symmetry; apply Z.leb_le; lia).
    reflexivity.
  - rewrite Hd. pose proof (@digitValue_range d Hd) as Hrange.
    destruct (2 ^ 32 - 1 <? 10 * n + digitValue d)%Z eqn:Hover.
    + apply Z.ltb_lt in Hover.
      pose proof (@fold_digits_monotone digits Hds (10 * n + digitValue d)%Z ltac:(lia)).
      replace (_ <=? 2 ^ 32 - 1)%Z with false by (symmetry; apply Z.leb_gt; lia).
      reflexivity.
    + apply Z.ltb_ge in Hover. apply IH. lia.
Qed.

(** [ParseInt32] on a non-empty run of digits: the number it denotes, or a
    range error from 2^31 on. *)
Lemma ParseInt32_digits (d : byte) (digits : list byte) :
  Forall (fun c => isDigit c = true) (d :: digits) ->
  ParseInt32 (d :: digits)
  = if (2 ^ 31 <=? decimalValue (d :: digits))%Z then inr ErrRange
    else inl (decimalValue (d :: digits)).
Proof.
  intros Hall. assert (Hd : isDigit d = true) by (inversion Hall; assumption).
  unfold ParseInt32.
  rewrite (@isDigit_not d x2b Hd) by (left; vm_compute; reflexivity).
  rewrite (@isDigit_not d x2d Hd) by (left; vm_compute; reflexivity).
  rewrite (ParseUint32_from_digits Hall) by lia.
  fold (decimalValue (d :: digits)). cbn [negb andb].
  destruct (decimalValue (d :: digits) <=? 2 ^ 32 - 1)%Z eqn:H32.
  - reflexivity.
  - apply Z.leb_gt in H32.
    replace (2 ^ 31 <=? decimalValue (d :: digits))%Z with true
      by (symmetry; apply Z.leb_le; lia).
    reflexivity.
Qed.

(** C10. The digits between the braces are parsed as a signed 32-bit
    integer: when the run of digits is empty or denotes more than 2^31 - 1,
    [next] panics with the error of [ParseInt], the cursor still on the
    right curly and everything after it, the end of line and the body,
    unread. *)
Theorem literal_length_out_of_range :
  forall (flag : unquotedLexerFlag) (l : lexer) (digits rest : list byte),
    skipSpace l = Ok tt (mkLexer (digits ++ rightCurly :: rest) leftCurly) ->
    Forall (fun c => isDigit c = true) digits ->
    digits = [] \/ (2 ^ 31 - 1 < decimalValue digits)%Z ->
    next flag l
    = Panic (ParseIntFailed (match digits with [] => ErrSyntax | _ :: _ => ErrRange end))
            (mkLexer rest rightCurly).
Proof.
  intros flag l digits rest Hskip Hall Hbad.
  unfold next, bind. rewrite Hskip. cbn [current reader].
  change (leftCurly == cr) with false. change (leftCurly == doubleQuote) with false.
  change (leftCurly == leftCurly) with true. cbv iota.
  destruct (digits ++ rightCurly :: rest) as [|cur rd] eqn:E.
  { symmetry in E. now apply app_cons_not_nil in E. }
  unfold consume at 1. cbn [reader]. unfold literal, bind. cbn [reader current].
  rewrite (@literalLength_from_digits rest digits cur rd [] Hall (eq_sym E)). cbn [app].
  destruct digits as [|d digits].
  - reflexivity.
  - rewrite (ParseInt32_digits Hall).
    destruct Hbad as [Hnil | Hbig]; [discriminate|].
    assert (Hr : (2 ^ 31 <=? decimalValue (d :: digits))%Z = true) by (apply Z.leb_le; lia).
    rewrite Hr. reflexivity.
Qed.

(** The length 2147483648 = 2^31 in front of a one-byte body. *)
Lemma literal_length_out_of_range_witness :
  next asAString (createLexer (bytes "{2147483648}" ++ [cr; lf; x78]))
  = Panic (ParseIntFailed ErrRange) (mkLexer [cr; lf; x78] rightCurly).
Proof.
  apply (@literal_length_out_of_range asAString
           (createLexer (bytes "{2147483648}" ++ [cr; lf; x78]))
           (bytes "2147483648") [cr; lf; x78]).
  - reflexivity.
  - repeat (constructor; [reflexivity|]). constructor.
  - right. vm_compute. reflexivity.
Defined.

(** The largest length that is accepted, signs, and a byte that is no
    digit. *)
Lemma ParseInt32_examples :
  ParseInt32 (bytes "2147483647") = inl (2 ^ 31 - 1)%Z
  /\ ParseInt32 (bytes "0011") = inl 11%Z
  /\ ParseInt32 (bytes "-2147483648") = inl (- 2 ^ 31)%Z
  /\ ParseInt32 (bytes "+7") = inl 7%Z
  /\ ParseInt32 (bytes "-") = inr ErrSyntax
  /\ ParseInt32 (bytes "1_0") = inr ErrSyntax
  /\ ParseInt32 (bytes "99999999999999999999999") = inr ErrRange.
Proof. repeat split; reflexivity. Qed.

Lemma literal_empty_length :
  next asAString (createLexer (bytes "{}" ++ [cr; lf; x78]))
  = Panic (ParseIntFailed ErrSyntax) (mkLexer [cr; lf; x78] rightCurly).
Proof. reflexivity. Qed.

Lemma consumeEol_from_lf (rd : list byte) :
  consumeEol_from rd lf = Ok tt (mkLexer rd lf).
Proof. destruct rd; reflexivity. Qed.

(** The second loop of [literal] appends the byte under the cursor first:
    [n] iterations take [current] and the [n - 1] bytes after it. *)
Lemma literalBody_from_firstn :
  forall (n : nat) (rd : list byte) (cur : byte) (buffer : list byte),
    n <= List.length rd ->
    literalBody_from rd cur (Z.of_nat n) buffer
    = Ok (buffer ++ firstn n (cur :: rd)) (mkLexer (skipn n rd) (nth n (cur :: rd) x00)).
Proof.
  induction n as [|n IH]; intros rd cur buffer Hlen.
  - rewrite app_nil_r. destruct rd; reflexivity.
  - destruct rd as [|b rd]; [simpl in Hlen; lia|].
    cbn [literalBody_from].
    replace (0 <? Z.of_nat (S n))%Z with true by (symmetry; apply Z.ltb_lt; lia).
    replace (Z.of_nat (S n) - 1)%Z with (Z.of_nat n) by lia.
    rewrite IH by (simpl in Hlen; lia).
    rewrite <- app_assoc. reflexivity.
Qed.

(** What [literal] returns on [{digits}CRLF body]: [consumeEol] stops with
    the cursor on the line feed, so the value is the first [n] bytes of the
    line feed followed by the body, not the first [n] bytes of the body. *)
Lemma literal_value_from_line_feed :
  forall (flag : unquotedLexerFlag) (l : lexer) (digits body : list byte) (n : nat),
    skipSpace l = Ok tt (mkLexer (digits ++ rightCurly :: cr :: lf :: body) leftCurly) ->
    Forall (fun c => isDigit c = true) digits ->
    ParseInt32 digits = inl (Z.of_nat n) ->
    n <= List.length body ->
    next flag l
    = Ok (mkToken (firstn n (lf :: body)) stringTokenType)
         (mkLexer (skipn n body) (nth n (lf :: body) x00)).
Proof.
  intros flag l digits body n Hskip Hall Hparse Hlen.
  unfold next, bind. rewrite Hskip. cbn [current reader].
  change (leftCurly == cr) with false. change (leftCurly == doubleQuote) with false.
  change (leftCurly == leftCurly) with true. cbv iota.
  destruct (digits ++ rightCurly :: cr :: lf :: body) as [|cur rd] eqn:E.
  { symmetry in E. now apply app_cons_not_nil in E. }
  unfold consume at 1. cbn [reader]. unfold literal, bind. cbn [reader current].
  rewrite (@literalLength_from_digits (cr :: lf :: body) digits cur rd [] Hall (eq_sym E)).
  cbn [app]. rewrite Hparse.
  unfold consumeEol. cbn [reader current consumeEol_from].
  change (rightCurly == lf) with false. change (cr == lf) with false. cbv iota.
  rewrite consumeEol_from_lf. cbn [reader current].
  rewrite literalBody_from_firstn by exact Hlen. reflexivity.
Qed.

(** C2, on the code. Lexing [{11}\r\nhello world] returns the line feed
    followed by [hello worl], the first ten bytes of the body, and leaves
    the last byte [d] under the cursor; the value is not [hello world]. *)
Theorem literal_hello_world_keeps_line_feed :
  next asAString (createLexer helloLiteral)
  = Ok (mkToken (lf :: bytes "hello worl") stringTokenType) (mkLexer [] x64)
  /\ lf :: bytes "hello worl" <> bytes "hello world".
Proof. split; [reflexivity | discriminate]. Qed.

(** *** The quoted string *)

Lemma qstring_from_close (rest buffer : list byte) (nxt : byte) :
  qstring_from (nxt :: rest) doubleQuote buffer
  = Ok (mkToken buffer stringTokenType) (mkLexer rest nxt).
Proof. reflexivity. Qed.

Lemma qstring_from_plain (rd buffer : list byte) (c b : byte) :
  wellFormed (Plain c) ->
  qstring_from (b :: rd) c buffer = qstring_from rd b (buffer ++ [c]).
Proof.
  intros (Hq & Hcr & Hlf & Hbs). cbn [qstring_from].
  rewrite (eqb_neq Hq), (eqb_neq Hcr), (eqb_neq Hlf), (eqb_neq Hbs). reflexivity.
Qed.

Lemma qstring_from_escaped (rd buffer : list byte) (escaped b : byte) :
  qstring_from (escaped :: b :: rd) backslash buffer
  = qstring_from rd b (buffer ++ [escaped]).
Proof. reflexivity. Qed.

(** The loop of [qstring] decodes a well-formed content up to the closing
    quote and consumes the quote. *)
Lemma qstring_from_content (nxt : byte) (rest : list byte) :
  forall (qs : list qchar) (cur : byte) (rd buffer : list byte),
    Forall wellFormed qs ->
    cur :: rd = flat_map encode qs ++ doubleQuote :: nxt :: rest ->
    qstring_from rd cur buffer
    = Ok (mkToken (buffer ++ map decode qs) stringTokenType) (mkLexer rest nxt).
Proof.
  induction qs as [|q qs IH]; intros cur rd buffer Hall Heq.
  - injection Heq as -> ->. cbn [map]. rewrite app_nil_r. apply qstring_from_close.
  - inversion Hall as [|? ? Hq Hqs]; subst.
    cbn [flat_map] in Heq. rewrite <- app_assoc in Heq.
    destruct (flat_map encode qs ++ doubleQuote :: nxt :: rest) as [|b rd'] eqn:E.
    { symmetry in E. now apply app_cons_not_nil in E. }
    destruct q as [c | c]; cbn [encode app] in Heq; injection Heq as -> ->.
    + rewrite qstring_from_plain by exact Hq.
      rewrite (IH b rd' (buffer ++ [c]) Hqs eq_refl), <- app_assoc. reflexivity.
    + rewrite qstring_from_escaped.
      rewrite (IH b rd' (buffer ++ [c]) Hqs eq_refl), <- app_assoc. reflexivity.
Qed.



Lemma qstring_plain_before_end_of_line :
  next asAString (createLexer (quotedPlain ++ [cr; lf]))
  = Ok (mkToken (bytes "plain") stringTokenType) (mkLexer [lf] cr).
Proof. reflexivity. Qed.

(** An escape takes a CR, which is fatal when bare. *)
Lemma qstring_escaped_cr :
  next asAString (createLexer [doubleQuote; backslash; cr; doubleQuote; space])
  = Ok (mkToken [cr] stringTokenType) (mkLexer [] space)
  /\ next asAString (createLexer [doubleQuote; cr; doubleQuote; space])
     = Panic (UnexpectedInQuotedString cr) (mkLexer [doubleQuote; space] cr).
Proof. split; reflexivity. Qed.


End LexerFacts.

(* ================================================================== *)
(** ** Facts about the session *)
(* ================================================================== *)

Module SessionFacts.

Import Session Fixtures.
Local Open Scope string_scope.

(** *** [selectMailbox] *)

(** C1, as the code has it. When [GetMailbox] returns a mailbox and no
    error, [selectMailbox] returns true with no error and makes note of the
    returned mailbox; the state of the session, like its id and its
    configuration, is what it was. *)
Theorem selectMailbox_found :
  forall (W : Type) (s : session W) (name : string) (w w' : W) (mbox : Mailbox),
    GetMailbox (Store (config s)) name w = ((Some mbox, None), w') ->
    selectMailbox name s w
    = ((true, None), mkSession (id s) (st s) (Some mbox) (config s), w').
Proof.
  intros W s name w w' mbox Hget. unfold selectMailbox. rewrite Hget. reflexivity.
Qed.

(** The lookup of [command_test.go], on a fresh session. *)
Lemma selectMailbox_found_witness :
  selectMailbox "inbox" (createSession 1 testConfig) tt
  = ((true, None), mkSession 1 notAuthenticated (Some inbox) testConfig, tt).
Proof.
  apply (@selectMailbox_found unit (createSession 1 testConfig) "inbox" tt tt inbox).
  reflexivity.
Defined.

(** C1, as the claim states it, fails: the lookup returns a mailbox and no
    error, and the session is not in state [selected] afterwards. *)
Lemma selectMailbox_state_counterexample :
  GetMailbox (Store testConfig) "inbox" tt = ((Some inbox, None), tt)
  /\ ~ (exists (s' : session unit) (w' : unit),
          selectMailbox "inbox" (createSession 1 testConfig) tt = ((true, None), s', w')
          /\ mailbox s' = Some inbox
          /\ st s' = selected).
Proof.
  split; [reflexivity|].
  intros (s' & w' & Hsel & _ & Hst).
  injection Hsel as <- _. discriminate Hst.
Qed.

(** C6. When [GetMailbox] returns an error, [selectMailbox] returns false
    with that error; when it returns no mailbox and no error,
    [selectMailbox] returns false with no error; in both cases the session,
    its state and its mailbox included, is what it was. *)
Theorem selectMailbox_not_found :
  forall (W : Type) (s : session W) (name : string) (w w' : W)
         (mbox : option Mailbox) (err : option error),
    GetMailbox (Store (config s)) name w = ((mbox, err), w') ->
    err <> None \/ mbox = None ->
    selectMailbox name s w = ((false, err), s, w').
Proof.
  intros W s name w w' mbox err Hget Hcase. unfold selectMailbox. rewrite Hget.
  destruct err as [e|]; [reflexivity|].
  destruct Hcase as [Herr | ->]; [congruence | reflexivity].
Qed.

(** A lookup that fails, on a session that holds a mailbox. *)
Lemma selectMailbox_not_found_witness :
  selectMailbox "inbox" (mkSession 1 authenticated (Some inbox) (mkConfig brokenStore)) tt
  = ((false, Some "store offline"),
     mkSession 1 authenticated (Some inbox) (mkConfig brokenStore), tt).
Proof.
  apply (@selectMailbox_not_found unit
           (mkSession 1 authenticated (Some inbox) (mkConfig brokenStore))
           "inbox" tt tt None (Some "store offline")).
  - reflexivity.
  - left. discriminate.
Defined.

(** A name the store does not know. *)
Lemma selectMailbox_unknown_name :
  selectMailbox "drafts" (mkSession 1 authenticated (Some inbox) (mkConfig emptyStore)) tt
  = ((false, None), mkSession 1 authenticated (Some inbox) (mkConfig emptyStore), tt).
Proof. reflexivity. Qed.

(** *** [addMailboxInfo] *)

(** C4. When the session holds a mailbox and the four Mailstore queries
    succeed, [addMailboxInfo] returns no error and appends to the untagged
    lines of the response exactly five lines, in this order: the total and
    EXISTS, the recent count and RECENT, the UNSEEN line with the first
    unseen number twice, the UIDVALIDITY line with the id of the mailbox,
    the UIDNEXT line with the next UID.  Each query runs in the store state
    the one before it left. *)
Theorem addMailboxInfo_five_lines :
  forall (W : Type) (s : session W) (resp : response) (w : W) (mbox : Mailbox),
    mailbox s = Some mbox ->
    let q1 := FirstUnseen (Store (config s)) (Id mbox) w in
    let q2 := TotalMessages (Store (config s)) (Id mbox) (storeOf q1) in
    let q3 := RecentMessages (Store (config s)) (Id mbox) (storeOf q2) in
    let q4 := NextUid (Store (config s)) (Id mbox) (storeOf q3) in
    errOf q1 = None -> errOf q2 = None -> errOf q3 = None -> errOf q4 = None ->
    addMailboxInfo s resp w
    = (Returned None,
       mkResponse (tag resp) (message resp)
         (untagged resp ++
          [formatInt (valOf q2) ++ " EXISTS";
           formatInt (valOf q3) ++ " RECENT";
           "OK [UNSEEN " ++ formatInt (valOf q1) ++ "] Message "
             ++ formatInt (valOf q1) ++ " is first unseen";
           "OK [UIDVALIDITY " ++ formatInt (Id mbox) ++ "] UIDs valid";
           "OK [UIDNEXT " ++ formatInt (valOf q4) ++ "] Predicted next UID"]),
       storeOf q4).
Proof.
  intros W s resp w mbox Hmb q1 q2 q3 q4. subst q1 q2 q3 q4.
  unfold addMailboxInfo, errOf, valOf, storeOf. rewrite Hmb.
  destruct (FirstUnseen _ _ w) as [[v1 e1] w1]. cbn [fst snd].
  destruct (TotalMessages _ _ w1) as [[v2 e2] w2]. cbn [fst snd].
  destruct (RecentMessages _ _ w2) as [[v3 e3] w3]. cbn [fst snd].
  destruct (NextUid _ _ w3) as [[v4 e4] w4]. cbn [fst snd].
  intros -> -> -> ->. unfold extra. cbn [tag message untagged].
  rewrite <- !app_assoc. reflexivity.
Qed.

(** The numbers of [command_test.go]: first unseen 4, total 8, recent 4,
    next UID 9, mailbox id 1. *)
Lemma addMailboxInfo_five_lines_witness :
  addMailboxInfo (mkSession 1 notAuthenticated (Some inbox) testConfig) emptyResponse tt
  = (Returned None,
     mkResponse "A00002" "SELECT completed"
       ["8 EXISTS";
        "4 RECENT";
        "OK [UNSEEN 4] Message 4 is first unseen";
        "OK [UIDVALIDITY 1] UIDs valid";
        "OK [UIDNEXT 9] Predicted next UID"],
     tt).
Proof.
  apply (@addMailboxInfo_five_lines unit
           (mkSession 1 notAuthenticated (Some inbox) testConfig) emptyResponse tt inbox);
    reflexivity.
Defined.

(** C5. When the session holds a mailbox and one of the queries that
    [addMailboxInfo] makes returns an error (the first, or a later one after
    those before it succeeded), [addMailboxInfo] returns that error and the
    response it was given is unchanged: no untagged line is appended. *)
Theorem addMailboxInfo_all_or_nothing :
  forall (W : Type) (s : session W) (resp : response) (w : W) (mbox : Mailbox) (e : error),
    mailbox s = Some mbox ->
    let q1 := FirstUnseen (Store (config s)) (Id mbox) w in
    let q2 := TotalMessages (Store (config s)) (Id mbox) (storeOf q1) in
    let q3 := RecentMessages (Store (config s)) (Id mbox) (storeOf q2) in
    let q4 := NextUid (Store (config s)) (Id mbox) (storeOf q3) in
    errOf q1 = Some e
    \/ (errOf q1 = None /\ errOf q2 = Some e)
    \/ (errOf q1 = None /\ errOf q2 = None /\ errOf q3 = Some e)
    \/ (errOf q1 = None /\ errOf q2 = None /\ errOf q3 = None /\ errOf q4 = Some e) ->
    exists w' : W, addMailboxInfo s resp w = (Returned (Some e), resp, w').
Proof.
  intros W s resp w mbox e Hmb q1 q2 q3 q4. subst q1 q2 q3 q4.
  unfold addMailboxInfo, errOf, valOf, storeOf. rewrite Hmb.
  destruct (FirstUnseen _ _ w) as [[v1 e1] w1]. cbn [fst snd].
  destruct (TotalMessages _ _ w1) as [[v2 e2] w2]. cbn [fst snd].
  destruct (RecentMessages _ _ w2) as [[v3 e3] w3]. cbn [fst snd].
  destruct (NextUid _ _ w3) as [[v4 e4] w4]. cbn [fst snd].
  intros [-> | [[-> ->] | [(-> & -> & ->) | (-> & -> & -> & ->)]]];
    eexists; reflexivity.
Qed.

(** The third query fails: the two answers before it are dropped. *)
Lemma addMailboxInfo_all_or_nothing_witness :
  exists w' : unit,
    addMailboxInfo (mkSession 1 notAuthenticated (Some inbox) (mkConfig failingRecent))
                   emptyResponse tt
    = (Returned (Some "recent failed"), emptyResponse, w').
Proof.
  apply (@addMailboxInfo_all_or_nothing unit
           (mkSession 1 notAuthenticated (Some inbox) (mkConfig failingRecent))
           emptyResponse tt inbox "recent failed").
  - reflexivity.
  - right; right; left. repeat split.
Defined.

(** Whatever the store answers, the response gains no line or five. *)
Lemma addMailboxInfo_none_or_five (W : Type) (s : session W) (resp : response) (w : W) :
  let resp' := snd (fst (addMailboxInfo s resp w)) in
  resp' = resp
  \/ exists lines : list string,
       List.length lines = 5 /\ untagged resp' = (untagged resp ++ lines)%list.
Proof.
  unfold addMailboxInfo. destruct (mailbox s) as [mbox|]; [|left; reflexivity].
  destruct (FirstUnseen _ _ w) as [[v1 [e1|]] w1]; [left; reflexivity|].
  destruct (TotalMessages _ _ w1) as [[v2 [e2|]] w2]; [left; reflexivity|].
  destruct (RecentMessages _ _ w2) as [[v3 [e3|]] w3]; [left; reflexivity|].
  destruct (NextUid _ _ w3) as [[v4 [e4|]] w4]; [left; reflexivity|].
  right. cbn [fst snd]. unfold extra. cbn [tag message untagged].
  rewrite <- !app_assoc. cbn [app]. eexists. split; [|reflexivity]. reflexivity.
Qed.

(** Without a mailbox on the session the call panics before any query. *)
Lemma addMailboxInfo_without_mailbox (W : Type) (s : session W) (resp : response) (w : W) :
  mailbox s = None -> addMailboxInfo s resp w = (NilDereference, resp, w).
Proof. intros H. unfold addMailboxInfo. rewrite H. reflexivity. Qed.

(** *** Sequences of operations *)

(** One operation keeps the state; the mailbox becomes non-nil exactly on
    a [selectMailbox] that returns true, and never becomes nil again. *)
Lemma step_session (W : Type) (o : op) (s : session W) (w : W) :
  st (snd (fst (step o s w))) = st s
  /\ (mailbox (snd (fst (step o s w))) <> None
      <-> mailbox s <> None \/ exists err, fst (fst (step o s w)) = SelectReturned true err).
Proof.
  destruct o as [name | resp]; unfold step.
  - unfold selectMailbox.
    destruct (GetMailbox _ name w) as [[[m|] [e|]] w']; simpl;
      (split; [reflexivity|]);
      (split;
       [ intros H; first [left; exact H | right; eexists; reflexivity]
       | intros [H | [err H]]; first [exact H | discriminate H | discriminate] ]).
  - destruct (addMailboxInfo s resp w) as [[r resp'] w']. simpl.
    split; [reflexivity|]. split; [tauto|].
    intros [H | [err H]]; [exact H | discriminate H].
Qed.

Lemma run_session (W : Type) (ops : list op) :
  forall (s : session W) (w : W),
    st (sessionOf (run ops s w)) = st s
    /\ (mailbox (sessionOf (run ops s w)) <> None
        <-> mailbox s <> None
            \/ exists err, In (SelectReturned true err) (eventsOf (run ops s w))).
Proof.
  unfold sessionOf, eventsOf.
  induction ops as [|o ops IH]; intros s w; cbn [run].
  - cbn [fst snd]. split; [reflexivity|]. split; [tauto|].
    intros [H | [err []]]. exact H.
  - pose proof (step_session o s w) as [Hst Hmb].
    destruct (step o s w) as [[ev s1] w1]. cbn [fst snd] in Hst, Hmb.
    specialize (IH s1 w1). destruct IH as [IHst IHmb].
    destruct (run ops s1 w1) as [[evs s2] w2]. cbn [fst snd] in *.
    split; [congruence|].
    rewrite IHmb, Hmb. split.
    + intros [[H | [err ->]] | [err H]].
      * left; exact H.
      * right. exists err. left; reflexivity.
      * right. exists err. right; exact H.
    + intros [H | [err [-> | H]]].
      * left; left; exact H.
      * left; right. exists err; reflexivity.
      * right. exists err; exact H.
Qed.

(** C3, as the code has it. After any sequence of [selectMailbox] and
    [addMailboxInfo] on a session made by [createSession], the state is
    still [notAuthenticated], for no operation assigns it; so the state
    [selected] implies a mailbox only because it is never reached.  The
    session holds a mailbox exactly when some [selectMailbox] of the
    sequence returned true. *)
Theorem session_state_stays_notAuthenticated :
  forall (W : Type) (ops : list op) (id : Z) (cfg : Config W) (w : W),
    st (sessionOf (run ops (createSession id cfg) w)) = notAuthenticated
    /\ (st (sessionOf (run ops (createSession id cfg) w)) = selected ->
        mailbox (sessionOf (run ops (createSession id cfg) w)) <> None)
    /\ (mailbox (sessionOf (run ops (createSession id cfg) w)) <> None
        <-> exists err,
              In (SelectReturned true err) (eventsOf (run ops (createSession id cfg) w))).
Proof.
  intros W ops id cfg w.
  destruct (run_session ops (createSession id cfg) w) as [Hst Hmb].
  cbn [st mailbox createSession] in Hst, Hmb.
  split; [exact Hst|]. split.
  - rewrite Hst. discriminate.
  - rewrite Hmb. split.
    + intros [H | H]; [congruence | exact H].
    + intros H. right; exact H.
Qed.

(** C3, as the claim states it, fails: after one successful [selectMailbox]
    the session holds a mailbox and its state is not [selected]. *)
Lemma mailbox_without_selected_counterexample :
  ~ (mailbox (sessionOf (run [SelectMailbox "inbox"] (createSession 1 testConfig) tt)) <> None
     <-> st (sessionOf (run [SelectMailbox "inbox"] (createSession 1 testConfig) tt)) = selected).
Proof.
  intros [H _].
  assert (Hst : st (sessionOf (run [SelectMailbox "inbox"] (createSession 1 testConfig) tt))
                = selected) by (apply H; discriminate).
  discriminate Hst.
Qed.

(** The run behind it: select the inbox, then ask for its information. *)
Lemma select_then_info :
  run [SelectMailbox "inbox"; AddMailboxInfo emptyResponse] (createSession 1 testConfig) tt
  = ([SelectReturned true None;
      AddInfoDone (Returned None)
        (mkResponse "A00002" "SELECT completed"
           ["8 EXISTS";
            "4 RECENT";
            "OK [UNSEEN 4] Message 4 is first unseen";
            "OK [UIDVALIDITY 1] UIDs valid";
            "OK [UIDNEXT 9] Predicted next UID"])],
     mkSession 1 notAuthenticated (Some inbox) testConfig,
     tt).
Proof. reflexivity. Qed.

End SessionFacts.

(* ================================================================== *)
(** ** More about the lexer: every path of [next] *)
(* ================================================================== *)

Module LexerPaths.

Import Lexer Vocabulary Fixtures LexerFacts.
Local Open Scope bool_scope.
Local Unset Implicit Arguments.

(** *** The dispatch of [next] *)

Lemma next_at_cr (flag : unquotedLexerFlag) (l l1 : lexer) :
  skipSpace l = Ok tt l1 -> current l1 = cr ->
  next flag l = (consumeEol ;;; ret eolToken) l1.
Proof.
  intros Hskip Hc. unfold next at 1. unfold bind at 1. rewrite Hskip, Hc. reflexivity.
Qed.

Lemma next_at_quote (flag : unquotedLexerFlag) (l l1 : lexer) :
  skipSpace l = Ok tt l1 -> current l1 = doubleQuote ->
  next flag l = (consume ;;; qstring) l1.
Proof.
  intros Hskip Hc. unfold next at 1. unfold bind at 1. rewrite Hskip, Hc. reflexivity.
Qed.

Lemma next_at_curly (flag : unquotedLexerFlag) (l l1 : lexer) :
  skipSpace l = Ok tt l1 -> current l1 = leftCurly ->
  next flag l = (consume ;;; literal) l1.
Proof.
  intros Hskip Hc. unfold next at 1. unfold bind at 1. rewrite Hskip, Hc. reflexivity.
Qed.

Lemma next_at_other (flag : unquotedLexerFlag) (l l1 : lexer) :
  skipSpace l = Ok tt l1 ->
  current l1 <> cr -> current l1 <> doubleQuote -> current l1 <> leftCurly ->
  next flag l = unquoted flag l1.
Proof.
  intros Hskip Hcr Hq Hb. unfold next at 1. unfold bind at 1. rewrite Hskip.
  rewrite (eqb_neq Hcr), (eqb_neq Hq), (eqb_neq Hb). reflexivity.
Qed.

(** *** The end of line *)

Lemma consumeEol_from_to_lf (rest : list byte) :
  forall (pre : list byte) (cur : byte),
    cur <> lf -> ~ In lf pre ->
    consumeEol_from (pre ++ lf :: rest) cur = Ok tt (mkLexer rest lf).
Proof.
  induction pre as [|b pre IH]; intros cur Hcur Hpre; cbn [app consumeEol_from];
    rewrite (eqb_neq Hcur).
  - apply consumeEol_from_lf.
  - apply IH; intros H; apply Hpre; [left; congruence | right; exact H].
Qed.

Lemma consumeEol_from_no_lf :
  forall (rd : list byte) (cur : byte),
    cur <> lf -> ~ In lf rd ->
    consumeEol_from rd cur = Panic ReadFailed exhausted.
Proof.
  induction rd as [|b rd IH]; intros cur Hcur Hrd; cbn [consumeEol_from];
    rewrite (eqb_neq Hcur); [reflexivity|].
  apply IH; intros H; apply Hrd; [left; congruence | right; exact H].
Qed.

(** X1. On a CR, [next] reads up to the first line feed, whatever bytes
    stand between the two, returns the end-of-line token and leaves the
    lookahead on that line feed, which is not read past. *)
Theorem next_end_of_line :
  forall (flag : unquotedLexerFlag) (l : lexer) (pre rest : list byte),
    skipSpace l = Ok tt (mkLexer (pre ++ lf :: rest) cr) ->
    ~ In lf pre ->
    next flag l = Ok eolToken (mkLexer rest lf).
Proof.
  intros flag l pre rest Hskip Hpre.
  rewrite (next_at_cr flag _ _ Hskip eq_refl).
  unfold bind, consumeEol. cbn [reader current].
  rewrite consumeEol_from_to_lf by (discriminate || assumption). reflexivity.
Qed.

(** A line end after a word, with the next command behind it. *)
Lemma next_end_of_line_witness :
  next asAny (mkLexer ([cr; lf] ++ bytes "A2 NOOP") space)
  = Ok eolToken (mkLexer (bytes "A2 NOOP") lf).
Proof.
  apply (@next_end_of_line asAny (mkLexer ([cr; lf] ++ bytes "A2 NOOP") space)
           [] (bytes "A2 NOOP")).
  - reflexivity.
  - intros [].
Defined.

(** X2. On a CR with no line feed in the rest of the stream, [next]
    reads the stream to its end and panics on the failed read. *)
Theorem next_end_of_line_missing :
  forall (flag : unquotedLexerFlag) (l : lexer) (rd : list byte),
    skipSpace l = Ok tt (mkLexer rd cr) ->
    ~ In lf rd ->
    next flag l = Panic ReadFailed exhausted.
Proof.
  intros flag l rd Hskip Hrd.
  rewrite (next_at_cr flag _ _ Hskip eq_refl).
  unfold bind, consumeEol. cbn [reader current].
  rewrite consumeEol_from_no_lf by (discriminate || assumption). reflexivity.
Qed.

Lemma next_end_of_line_missing_witness :
  next asAny (createLexer [cr; cr; space]) = Panic ReadFailed exhausted.
Proof.
  apply (@next_end_of_line_missing asAny (createLexer [cr; cr; space]) [cr; space]).
  - reflexivity.
  - intros [H | [H | []]]; discriminate H.
Defined.

(** *** The unquoted string in every mode *)

Lemma accepted_not_cr (exceptions : list byte) (c : byte) :
  accepted exceptions c -> c <> cr.
Proof.
  intros [Hp _] ->. pose proof (@printable_not_cr _ Hp) as H.
  discriminate H.
Qed.

(** What [unquoted] returns on a run of accepted bytes that a byte it does
    not accept ends. *)
Lemma unquoted_run (flag : unquotedLexerFlag) (c : byte) (run : list byte)
  (t : byte) (rest : list byte) :
  Forall (accepted (exceptionsOf flag)) (c :: run) ->
  ~ accepted (exceptionsOf flag) t ->
  unquoted flag (mkLexer (run ++ t :: rest) c)
  = Ok (mkToken (c :: run) stringTokenType) (mkLexer rest t).
Proof.
  intros Hrun Ht. rewrite unquoted_nonquoted. unfold nonquoted, bind.
  cbn [reader current].
  rewrite (@nonquoted_from_run (exceptionsOf flag) t rest Ht run c [] Hrun).
  reflexivity.
Qed.

(** X3. In every mode, when the byte under the cursor after the skip is
    accepted by the mode (printable and outside its exception set) and is
    not a double quote or an opening brace, [next] returns the whole run of
    accepted bytes up to the first byte the mode does not accept, and that
    byte is left under the cursor, unread by the token. *)
Theorem next_unquoted_run :
  forall (flag : unquotedLexerFlag) (l : lexer) (c : byte) (run : list byte)
         (t : byte) (rest : list byte),
    skipSpace l = Ok tt (mkLexer (run ++ t :: rest) c) ->
    Forall (accepted (exceptionsOf flag)) (c :: run) ->
    ~ accepted (exceptionsOf flag) t ->
    c <> doubleQuote ->
    c <> leftCurly ->
    next flag l = Ok (mkToken (c :: run) stringTokenType) (mkLexer rest t).
Proof.
  intros flag l c run t rest Hskip Hrun Ht Hq Hb.
  assert (Hc : accepted (exceptionsOf flag) c) by (inversion Hrun; assumption).
  rewrite (next_at_other flag _ _ Hskip); cbn [current];
    [ now apply unquoted_run | exact (accepted_not_cr _ _ Hc) | exact Hq | exact Hb ].
Qed.

Lemma accepted_code (exceptions : list byte) (c : byte) :
  (Byte.to_N space <? Byte.to_N c)%N && (Byte.to_N c <? Byte.to_N x7f)%N
  && (-1 =? IndexByte exceptions c)%Z = true ->
  accepted exceptions c.
Proof.
  intros H. apply andb_true_iff in H. destruct H as [Hp Hi].
  split; [now apply printable_code|].
  intros Hin. apply IndexByte_In in Hin. apply Z.eqb_eq in Hi. lia.
Qed.

(** A tag before a space: in [asTag] mode the plus sign ends the run. *)
Lemma next_unquoted_run_witness :
  next asTag (createLexer (bytes "A1+B C"))
  = Ok (mkToken (bytes "A1") stringTokenType) (mkLexer (bytes "B C") plus).
Proof.
  apply (@next_unquoted_run asTag (createLexer (bytes "A1+B C")) x41 [x31] plus (bytes "B C")).
  - reflexivity.
  - repeat (constructor; [apply accepted_code; reflexivity|]). constructor.
  - intros [_ Hn]. apply Hn. vm_compute. tauto.
  - discriminate.
  - discriminate.
Defined.

(** The scan, read backwards: what it returns was taken off the front of
    the stream, byte by byte, while the bytes were accepted. *)
Lemma nonquoted_from_inv (exceptions : list byte) :
  forall (rd : list byte) (cur : byte) (buffer buffer' : list byte) (l' : lexer),
    nonquoted_from exceptions rd cur buffer = Ok buffer' l' ->
    exists run : list byte,
      buffer' = buffer ++ run
      /\ cur :: rd = run ++ stream l'
      /\ Forall (accepted exceptions) run
      /\ ~ accepted exceptions (current l').
Proof.
  assert (Hstop : forall rd cur buffer buffer' l',
             (space << cur) && (-1 =? IndexByte exceptions cur)%Z && (cur << x7f) = false ->
             Ok buffer (mkLexer rd cur) = Ok buffer' l' ->
             exists run : list byte,
               buffer' = buffer ++ run /\ cur :: rd = run ++ stream l'
               /\ Forall (accepted exceptions) run /\ ~ accepted exceptions (current l')).
  { intros rd cur buffer buffer' l' E H. injection H as <- <-. exists [].
    rewrite app_nil_r. repeat split; [constructor|].
    cbn [current]. unfold accepted. rewrite <- scan_condition, E. discriminate. }
  induction rd as [|b rd IH]; intros cur buffer buffer' l' H; cbn [nonquoted_from] in H;
    destruct (_ && _ && _) eqn:E; try discriminate H; try (now apply Hstop).
  apply IH in H. destruct H as (run & -> & Hs & Hall & Hl').
  exists (cur :: run). rewrite <- app_assoc. cbn [app]. rewrite Hs.
  repeat split; try assumption.
  constructor; [|exact Hall]. unfold accepted. now rewrite <- scan_condition.
Qed.

Lemma unquoted_token_kind (flag : unquotedLexerFlag) (l l' : lexer) (tok : token) :
  unquoted flag l = Ok tok l' -> tokType tok = stringTokenType.
Proof.
  rewrite unquoted_nonquoted. unfold nonquoted, bind. intros H.
  destruct (nonquoted_from (exceptionsOf flag) (reader l) (current l) []) as [buffer l0|e l0];
    [|discriminate H].
  destruct (List.length buffer =? 0)%nat; [discriminate H|].
  unfold ret in H. injection H as <- _. reflexivity.
Qed.

(** X4. Whenever the unquoted scan of a mode returns a token, the token is
    a string token whose value is exactly the bytes taken off the front of
    the stream; every byte of it is accepted by the mode, and the byte left
    under the cursor is one the mode does not accept: the token is never cut
    short and never runs over a byte of the exception set. *)
Theorem unquoted_token_is_maximal_run :
  forall (flag : unquotedLexerFlag) (l l' : lexer) (tok : token),
    unquoted flag l = Ok tok l' ->
    stream l = value tok ++ stream l'
    /\ Forall (accepted (exceptionsOf flag)) (value tok)
    /\ ~ accepted (exceptionsOf flag) (current l')
    /\ tokType tok = stringTokenType.
Proof.
  intros flag l l' tok H. rewrite unquoted_nonquoted in H.
  unfold nonquoted, bind in H.
  destruct (nonquoted_from (exceptionsOf flag) (reader l) (current l) []) as [buffer l0|e l0] eqn:E;
    [|discriminate H].
  destruct (List.length buffer =? 0)%nat; [discriminate H|].
  unfold ret in H. injection H as <- <-.
  apply nonquoted_from_inv in E. destruct E as (run & -> & Hs & Hall & Hl').
  cbn [value tokType app]. unfold stream at 1. tauto.
Qed.

Lemma unquoted_token_is_maximal_run_witness :
  stream (mkLexer (bytes "NBOX (x)") x49)
  = bytes "INBOX" ++ stream (mkLexer (bytes "(x)") space)
  /\ Forall (accepted (exceptionsOf asListMailbox)) (bytes "INBOX")
  /\ ~ accepted (exceptionsOf asListMailbox) space
  /\ stringTokenType = stringTokenType.
Proof.
  apply (unquoted_token_is_maximal_run asListMailbox
           (mkLexer (bytes "NBOX (x)") x49) (mkLexer (bytes "(x)") space)
           (mkToken (bytes "INBOX") stringTokenType)).
  reflexivity.
Defined.

(** X5. [next] skips one separator only: when the cursor is on a space or
    a line feed and the byte after it is again a space or a line feed, the
    second one is taken for the start of an unquoted string and [next]
    panics, in every mode, with the cursor on that second separator. *)
Theorem next_skips_one_separator_only :
  forall (flag : unquotedLexerFlag) (l : lexer) (sep : byte) (rest : list byte),
    current l = space \/ current l = lf ->
    reader l = sep :: rest ->
    sep = space \/ sep = lf ->
    next flag l = Panic (Expected (nameOf flag)) (mkLexer rest sep).
Proof.
  intros flag [rd cur] sep rest Hcur Hrd Hsep. cbn [current reader] in Hcur, Hrd. subst rd.
  assert (Hskip : skipSpace (mkLexer (sep :: rest) cur) = Ok tt (mkLexer rest sep))
    by (destruct Hcur as [-> | ->]; reflexivity).
  rewrite (next_at_other flag _ _ Hskip);
    [| destruct Hsep as [-> | ->]; discriminate ..].
  rewrite unquoted_nonquoted. apply nonquoted_stops_at_once.
  destruct Hsep as [-> | ->]; reflexivity.
Qed.

(** Two spaces between a tag and a command. *)
Lemma next_skips_one_separator_only_witness :
  next asAny (mkLexer (bytes " NOOP") space)
  = Panic (Expected "ANY") (mkLexer (bytes "NOOP") space).
Proof.
  apply (next_skips_one_separator_only asAny (mkLexer (bytes " NOOP") space)
           space (bytes "NOOP")).
  - left; reflexivity.
  - reflexivity.
  - left; reflexivity.
Defined.

(** *** The quoted string, beyond its closing quote *)

Lemma nonempty_stream (pre : list byte) (c : byte) (rest : list byte) :
  exists (b : byte) (rd : list byte), pre ++ c :: rest = b :: rd.
Proof. destruct pre as [|b pre]; cbn [app]; eauto. Qed.

(** The loop of [qstring] over a well-formed content, whatever byte
    follows the content. *)
Lemma qstring_from_prefix (c : byte) (rest : list byte) :
  forall (qs : list qchar) (cur : byte) (rd buffer : list byte),
    Forall wellFormed qs ->
    cur :: rd = flat_map encode qs ++ c :: rest ->
    qstring_from rd cur buffer = qstring_from rest c (buffer ++ map decode qs).
Proof.
  induction qs as [|q qs IH]; intros cur rd buffer Hall Heq.
  - injection Heq as -> ->. cbn [map]. now rewrite app_nil_r.
  - inversion Hall as [|? ? Hq Hqs]; subst.
    cbn [flat_map] in Heq. rewrite <- app_assoc in Heq.
    destruct (nonempty_stream (flat_map encode qs) c rest) as (b & rd' & E).
    rewrite E in Heq.
    destruct q as [p | e]; cbn [encode app] in Heq; injection Heq as -> ->; cbn [map decode].
    + rewrite (qstring_from_plain rd' buffer b Hq).
      rewrite (IH b rd' (buffer ++ [p]) Hqs (eq_sym E)), <- app_assoc. reflexivity.
    + rewrite qstring_from_escaped.
      rewrite (IH b rd' (buffer ++ [e]) Hqs (eq_sym E)), <- app_assoc. reflexivity.
Qed.

Lemma next_quoted (flag : unquotedLexerFlag) (l l1 : lexer) (b : byte) (rd : list byte) :
  skipSpace l = Ok tt l1 ->
  stream l1 = doubleQuote :: b :: rd ->
  next flag l = qstring_from rd b [].
Proof.
  intros Hskip Hs. destruct l1 as [rd1 cur1]. unfold stream in Hs. cbn [current reader] in Hs.
  injection Hs as -> ->.
  rewrite (next_at_quote flag _ _ Hskip eq_refl). reflexivity.
Qed.

Lemma quoteChar_wellFormed (v : list byte) : Forall wellFormed (map quoteChar v).
Proof.
  induction v as [|c v IH]; cbn [map]; constructor; [|exact IH].
  unfold quoteChar, needsEscape.
  destruct (c == doubleQuote) eqn:E1; [exact I|].
  destruct (c == backslash) eqn:E2; [exact I|].
  destruct (c == cr) eqn:E3; [exact I|].
  destruct (c == lf) eqn:E4; [exact I|].
  cbn [orb wellFormed]. repeat split; now apply Byte.eqb_false.
Qed.

Lemma quoteChar_decode (v : list byte) : map decode (map quoteChar v) = v.
Proof.
  induction v as [|c v IH]; cbn [map]; [reflexivity|].
  rewrite IH. unfold quoteChar. destruct (needsEscape c); reflexivity.
Qed.

Lemma quoteChar_encode (v : list byte) :
  flat_map (fun c => encode (quoteChar c)) v = flat_map encode (map quoteChar v).
Proof.
  induction v as [|c v IH]; cbn [map flat_map]; [reflexivity|]. now rewrite IH.
Qed.

(** X6. Round trip of the quoted string: every byte string, written
    between double quotes with a backslash before each double quote,
    backslash, CR and LF, is read back by [next], in every mode, as a string
    token with exactly that value, provided one more byte follows the
    closing quote; that byte is left under the cursor. *)
Theorem quoted_string_round_trip :
  forall (flag : unquotedLexerFlag) (l l1 : lexer) (v : list byte)
         (nxt : byte) (rest : list byte),
    skipSpace l = Ok tt l1 ->
    stream l1 = quote v ++ nxt :: rest ->
    next flag l = Ok (mkToken v stringTokenType) (mkLexer rest nxt).
Proof.
  intros flag l l1 v nxt rest Hskip Hs.
  unfold quote in Hs. cbn [app] in Hs. rewrite <- app_assoc in Hs. cbn [app] in Hs.
  rewrite quoteChar_encode in Hs.
  destruct (nonempty_stream (flat_map encode (map quoteChar v)) doubleQuote (nxt :: rest))
    as (b & rd & E).
  rewrite E in Hs. rewrite (next_quoted flag l l1 b rd Hskip Hs).
  rewrite (@qstring_from_content nxt rest (map quoteChar v) b rd []
             (quoteChar_wellFormed v) (eq_sym E)).
  cbn [app]. now rewrite quoteChar_decode.
Qed.

(** A value holding a quote, a backslash, a CR and a LF. *)
Lemma quoted_string_round_trip_witness :
  next asAString (createLexer (quote [x61; doubleQuote; backslash; cr; lf; x62] ++ [cr; lf]))
  = Ok (mkToken [x61; doubleQuote; backslash; cr; lf; x62] stringTokenType) (mkLexer [lf] cr).
Proof.
  apply (quoted_string_round_trip asAString
           (createLexer (quote [x61; doubleQuote; backslash; cr; lf; x62] ++ [cr; lf]))
           (mkLexer (List.tl (quote [x61; doubleQuote; backslash; cr; lf; x62]) ++ [cr; lf])
                    doubleQuote)
           [x61; doubleQuote; backslash; cr; lf; x62] cr [lf]);
    reflexivity.
Defined.

Lemma qstring_from_newline (rd buffer : list byte) (c : byte) :
  c = cr \/ c = lf ->
  qstring_from rd c buffer = Panic (UnexpectedInQuotedString c) (mkLexer rd c).
Proof. intros [-> | ->]; destruct rd; reflexivity. Qed.

(** X7. A CR or LF that stands bare inside a quoted string, after any
    well-formed content, makes [next] panic on that byte: the cursor stays on
    it and nothing after it is read. *)
Theorem quoted_string_bare_newline :
  forall (flag : unquotedLexerFlag) (l l1 : lexer) (qs : list qchar)
         (c : byte) (rest : list byte),
    skipSpace l = Ok tt l1 ->
    stream l1 = doubleQuote :: flat_map encode qs ++ c :: rest ->
    Forall wellFormed qs ->
    c = cr \/ c = lf ->
    next flag l = Panic (UnexpectedInQuotedString c) (mkLexer rest c).
Proof.
  intros flag l l1 qs c rest Hskip Hs Hall Hc.
  destruct (nonempty_stream (flat_map encode qs) c rest) as (b & rd & E).
  rewrite E in Hs. rewrite (next_quoted flag l l1 b rd Hskip Hs).
  rewrite (qstring_from_prefix c rest qs b rd [] Hall (eq_sym E)).
  now apply qstring_from_newline.
Qed.

(** A quoted string that the end of the line cuts. *)
Lemma quoted_string_bare_newline_witness :
  next asAString (createLexer ([doubleQuote] ++ bytes "in" ++ [cr; lf]))
  = Panic (UnexpectedInQuotedString cr) (mkLexer [lf] cr).
Proof.
  apply (quoted_string_bare_newline asAString
           (createLexer ([doubleQuote] ++ bytes "in" ++ [cr; lf]))
           (mkLexer (bytes "in" ++ [cr; lf]) doubleQuote)
           [Plain x69; Plain x6e] cr [lf]).
  - reflexivity.
  - reflexivity.
  - repeat constructor; discriminate.
  - left; reflexivity.
Defined.

Lemma qstring_from_unterminated :
  forall (qs : list qchar) (cur : byte) (rd buffer : list byte),
    Forall wellFormed qs ->
    cur :: rd = flat_map encode qs ->
    qstring_from rd cur buffer = Panic ReadFailed exhausted.
Proof.
  induction qs as [|q qs IH]; intros cur rd buffer Hall Heq; [discriminate Heq|].
  inversion Hall as [|? ? Hq Hqs]; subst. cbn [flat_map] in Heq.
  destruct (flat_map encode qs) as [|b rd'] eqn:E.
  - destruct q as [p | e]; cbn [encode app] in Heq; injection Heq as -> ->.
    + destruct Hq as (H1 & H2 & H3 & H4). cbn [qstring_from].
      now rewrite (eqb_neq H1), (eqb_neq H2), (eqb_neq H3), (eqb_neq H4).
    + reflexivity.
  - destruct q as [p | e]; cbn [encode app] in Heq; injection Heq as -> ->.
    + rewrite (qstring_from_plain rd' buffer b Hq). now apply IH.
    + rewrite qstring_from_escaped. now apply IH.
Qed.

(** X8. A quoted string that the stream ends before its closing quote,
    the content being well formed as far as it goes, makes [next] panic on
    the failed read, with the stream read to its end. *)
Theorem quoted_string_unterminated :
  forall (flag : unquotedLexerFlag) (l l1 : lexer) (qs : list qchar),
    skipSpace l = Ok tt l1 ->
    stream l1 = doubleQuote :: flat_map encode qs ->
    Forall wellFormed qs ->
    next flag l = Panic ReadFailed exhausted.
Proof.
  intros flag l l1 qs Hskip Hs Hall.
  destruct l1 as [rd1 cur1]. unfold stream in Hs. cbn [current reader] in Hs.
  injection Hs as -> ->.
  rewrite (next_at_quote flag _ _ Hskip eq_refl). unfold bind, consume. cbn [reader].
  destruct (flat_map encode qs) as [|b rd] eqn:E; [reflexivity|].
  unfold qstring. cbn [reader current].
  now apply (qstring_from_unterminated qs b rd []).
Qed.

(** A string that ends on an escape. *)
Lemma quoted_string_unterminated_witness :
  next asAString (createLexer [doubleQuote; x61; backslash; doubleQuote])
  = Panic ReadFailed exhausted.
Proof.
  apply (quoted_string_unterminated asAString
           (createLexer [doubleQuote; x61; backslash; doubleQuote])
           (mkLexer [x61; backslash; doubleQuote] doubleQuote)
           [Plain x61; Escaped doubleQuote]).
  - reflexivity.
  - reflexivity.
  - repeat constructor; discriminate.
Defined.

(** *** The literal, from the brace to the body *)

(** The first loop of [literal] over a run of digits, whatever byte
    follows the run. *)
Lemma literalLength_from_prefix (c : byte) (rest : list byte) :
  forall (digits : list byte) (cur : byte) (rd lengthBuffer : list byte),
    Forall (fun d => isDigit d = true) digits ->
    cur :: rd = digits ++ c :: rest ->
    literalLength_from rd cur lengthBuffer
    = literalLength_from rest c (lengthBuffer ++ digits).
Proof.
  induction digits as [|d digits IH]; intros cur rd lengthBuffer Hall Heq.
  - injection Heq as -> ->. now rewrite app_nil_r.
  - injection Heq as -> ->. inversion Hall as [|? ? Hd Hds]; subst.
    destruct (nonempty_stream digits c rest) as (b & rd' & E). rewrite E.
    rewrite (@literalLength_from_step rd' lengthBuffer d b Hd).
    rewrite (IH b rd' (lengthBuffer ++ [d]) Hds (eq_sym E)), <- app_assoc. reflexivity.
Qed.

Lemma next_literal (flag : unquotedLexerFlag) (l l1 : lexer) (b : byte) (rd : list byte) :
  skipSpace l = Ok tt l1 ->
  stream l1 = leftCurly :: b :: rd ->
  next flag l = literal (mkLexer rd b).
Proof.
  intros Hskip Hs. destruct l1 as [rd1 cur1]. unfold stream in Hs. cbn [current reader] in Hs.
  injection Hs as -> ->.
  rewrite (next_at_curly flag _ _ Hskip eq_refl). reflexivity.
Qed.

(** X9. A byte between the braces of a literal that is neither a decimal
    digit nor the right curly makes [next] panic on that byte, after any run
    of digits: the cursor stays on it and nothing after it is read. *)
Theorem literal_length_bad_byte :
  forall (flag : unquotedLexerFlag) (l l1 : lexer) (digits : list byte)
         (c : byte) (rest : list byte),
    skipSpace l = Ok tt l1 ->
    stream l1 = leftCurly :: digits ++ c :: rest ->
    Forall (fun d => isDigit d = true) digits ->
    isDigit c = false ->
    c <> rightCurly ->
    next flag l = Panic (UnexpectedInLiteralLength c) (mkLexer rest c).
Proof.
  intros flag l l1 digits c rest Hskip Hs Hall Hc Hcurly.
  destruct (nonempty_stream digits c rest) as (b & rd & E).
  rewrite E in Hs. rewrite (next_literal flag l l1 b rd Hskip Hs).
  unfold literal, bind. cbn [reader current].
  rewrite (literalLength_from_prefix c rest digits b rd [] Hall (eq_sym E)).
  assert (Hout : (c << zero) || (nine << c) = true).
  { unfold isDigit in Hc. destruct (c << zero), (nine << c); try reflexivity; discriminate Hc. }
  destruct rest; cbn [literalLength_from]; rewrite (eqb_neq Hcurly), Hout; reflexivity.
Qed.

(** A length with a plus sign, as a non-synchronising literal would have. *)
Lemma literal_length_bad_byte_witness :
  next asAString (createLexer (bytes "{12+}"))
  = Panic (UnexpectedInLiteralLength plus) (mkLexer [rightCurly] plus).
Proof.
  apply (literal_length_bad_byte asAString (createLexer (bytes "{12+}"))
           (mkLexer (bytes "12+}") leftCurly) (bytes "12") plus [rightCurly]).
  - reflexivity.
  - reflexivity.
  - repeat constructor.
  - reflexivity.
  - discriminate.
Defined.


(** A non-empty run of digits below 2^31 is the length it denotes. *)
Lemma ParseInt32_length (digits : list byte) (n : nat) :
  digits <> [] ->
  Forall (fun d => isDigit d = true) digits ->
  decimalValue digits = Z.of_nat n ->
  (Z.of_nat n < 2 ^ 31)%Z ->
  ParseInt32 digits = inl (Z.of_nat n).
Proof.
  intros Hne Hall Hval Hsmall. destruct digits as [|d digits]; [contradiction|].
  rewrite (@ParseInt32_digits d digits Hall), Hval.
  replace (2 ^ 31 <=? Z.of_nat n)%Z with false by (symmetry; apply Z.leb_gt; lia).
  reflexivity.
Qed.

(** What [literal] does from the first digit on, the line feed being the
    first one after the right curly. *)
Lemma literal_from_digits (digits junk body : list byte) (n : nat) (b : byte) (rd : list byte) :
  b :: rd = digits ++ rightCurly :: junk ++ lf :: body ->
  digits <> [] ->
  Forall (fun d => isDigit d = true) digits ->
  decimalValue digits = Z.of_nat n ->
  (Z.of_nat n < 2 ^ 31)%Z ->
  ~ In lf junk ->
  literal (mkLexer rd b)
  = (buffer <- (fun l => literalBody_from (reader l) (current l) (Z.of_nat n) []) ;;
     ret (mkToken buffer stringTokenType)) (mkLexer body lf).
Proof.
  intros E Hne Hall Hval Hsmall Hjunk.
  unfold literal at 1. unfold bind at 1. cbn [reader current].
  rewrite (@literalLength_from_digits (junk ++ lf :: body) digits b rd [] Hall E).
  cbn [app]. rewrite (ParseInt32_length digits n Hne Hall Hval Hsmall).
  unfold bind at 1. unfold consumeEol. cbn [reader current].
  rewrite (consumeEol_from_to_lf body junk rightCurly) by (discriminate || assumption).
  reflexivity.
Qed.

(** X10. The value of a literal, as the code computes it.  After the
    digits and the right curly everything up to the first line feed is
    dropped, whatever it is; the value is then the first [n] bytes of that
    line feed followed by the body, [n] being the declared length: for a
    positive length it begins with the line feed and ends one byte short of
    the declared body, and that last byte is left under the cursor. *)
Theorem literal_value_starts_at_line_feed :
  forall (flag : unquotedLexerFlag) (l l1 : lexer) (digits junk body : list byte) (n : nat),
    skipSpace l = Ok tt l1 ->
    stream l1 = leftCurly :: digits ++ rightCurly :: junk ++ lf :: body ->
    digits <> [] ->
    Forall (fun d => isDigit d = true) digits ->
    decimalValue digits = Z.of_nat n ->
    (Z.of_nat n < 2 ^ 31)%Z ->
    ~ In lf junk ->
    n <= List.length body ->
    next flag l
    = Ok (mkToken (firstn n (lf :: body)) stringTokenType)
         (mkLexer (skipn n body) (nth n (lf :: body) x00)).
Proof.
  intros flag l l1 digits junk body n Hskip Hs Hne Hall Hval Hsmall Hjunk Hlen.
  destruct (nonempty_stream digits rightCurly (junk ++ lf :: body)) as (b & rd & E).
  rewrite E in Hs. rewrite (next_literal flag l l1 b rd Hskip Hs).
  rewrite (literal_from_digits digits junk body n b rd (eq_sym E) Hne Hall Hval Hsmall Hjunk).
  unfold bind. cbn [reader current].
  rewrite (@literalBody_from_firstn n body lf [] Hlen). reflexivity.
Qed.

(** A literal of length 3 with junk between the brace and the end of the
    line. *)
Lemma literal_value_starts_at_line_feed_witness :
  next asAString (createLexer (bytes "{3}junk" ++ [cr; lf] ++ bytes "abcd"))
  = Ok (mkToken (lf :: bytes "ab") stringTokenType) (mkLexer (bytes "d") x63).
Proof.
  apply (literal_value_starts_at_line_feed asAString
           (createLexer (bytes "{3}junk" ++ [cr; lf] ++ bytes "abcd"))
           (mkLexer (bytes "3}junk" ++ [cr; lf] ++ bytes "abcd") leftCurly)
           (bytes "3") (bytes "junk" ++ [cr]) (bytes "abcd") 3).
  - reflexivity.
  - reflexivity.
  - discriminate.
  - repeat constructor.
  - reflexivity.
  - reflexivity.
  - vm_compute. intuition discriminate.
  - vm_compute. lia.
Defined.



(** *** The cursor only moves forward *)

Lemma notBehind_refl (l : lexer) : notBehind l l.
Proof. exists []. reflexivity. Qed.

Lemma notBehind_trans (l l1 l2 : lexer) :
  notBehind l l1 -> notBehind l1 l2 -> notBehind l l2.
Proof.
  intros [p1 H1] [p2 H2]. exists (p1 ++ p2). now rewrite H1, H2, app_assoc.
Qed.

Lemma advanced_notBehind (l l' : lexer) : advanced l l' -> notBehind l l'.
Proof. intros [pre H]. exists (current l :: pre). unfold stream at 1. now rewrite H. Qed.

Lemma advanced_then (l l1 l2 : lexer) :
  advanced l l1 -> notBehind l1 l2 -> advanced l l2.
Proof.
  intros [p1 H1] [p2 H2]. exists (p1 ++ p2). now rewrite H1, H2, app_assoc.
Qed.

Lemma then_advanced (l l1 l2 : lexer) :
  notBehind l l1 -> advanced l1 l2 -> advanced l l2.
Proof.
  intros [p1 H1] [p2 H2]. unfold stream in H1 at 1 2. rewrite H2 in H1.
  destruct p1 as [|b p1]; cbn [app] in H1; injection H1 as _ H1.
  - exists p2. exact H1.
  - exists (p1 ++ current l1 :: p2). rewrite H1, <- app_assoc. reflexivity.
Qed.

Lemma consume_advanced (l l' : lexer) : consume l = Ok tt l' -> advanced l l'.
Proof.
  unfold consume. destruct (reader l) as [|b rd] eqn:E; [discriminate|].
  intros H. injection H as <-. exists []. exact E.
Qed.

Lemma skipSpace_notBehind (l l' : lexer) : skipSpace l = Ok tt l' -> notBehind l l'.
Proof.
  unfold skipSpace. destruct (_ || _).
  - intros H. now apply advanced_notBehind, consume_advanced.
  - intros H. injection H as <-. apply notBehind_refl.
Qed.

Lemma cons_notBehind (rd : list byte) (cur b : byte) (l' : lexer) :
  notBehind (mkLexer rd b) l' -> advanced (mkLexer (b :: rd) cur) l'.
Proof. intros [pre H]. exists pre. exact H. Qed.

(** [consumeEol] stops on a line feed and, off a line feed, reads at least
    one byte. *)
Lemma consumeEol_from_advanced :
  forall (rd : list byte) (cur : byte) (l' : lexer),
    consumeEol_from rd cur = Ok tt l' ->
    current l' = lf
    /\ notBehind (mkLexer rd cur) l'
    /\ (cur <> lf -> advanced (mkLexer rd cur) l').
Proof.
  induction rd as [|b rd IH]; intros cur l' H; cbn [consumeEol_from] in H;
    destruct (cur == lf) eqn:E.
  - injection H as <-. apply eqb_true in E. subst.
    repeat split; [apply notBehind_refl | congruence].
  - discriminate H.
  - injection H as <-. apply eqb_true in E. subst.
    repeat split; [apply notBehind_refl | congruence].
  - destruct (IH b l' H) as (Hlf & Hnb & _).
    pose proof (cons_notBehind rd cur b l' Hnb) as Hadv.
    repeat split; [exact Hlf | now apply advanced_notBehind | intros _; exact Hadv].
Qed.

Lemma literalLength_from_notBehind :
  forall (rd : list byte) (cur : byte) (lengthBuffer out : list byte) (l' : lexer),
    literalLength_from rd cur lengthBuffer = Ok out l' -> notBehind (mkLexer rd cur) l'.
Proof.
  induction rd as [|b rd IH]; intros cur lengthBuffer out l' H;
    cbn [literalLength_from] in H; destruct (cur == rightCurly);
    try (injection H as _ <-; apply notBehind_refl);
    destruct (_ || _); try discriminate H.
  apply IH in H. now apply advanced_notBehind, cons_notBehind.
Qed.

Lemma literalBody_from_notBehind :
  forall (rd : list byte) (cur : byte) (length : Z) (buffer out : list byte) (l' : lexer),
    literalBody_from rd cur length buffer = Ok out l' -> notBehind (mkLexer rd cur) l'.
Proof.
  induction rd as [|b rd IH]; intros cur length buffer out l' H;
    cbn [literalBody_from] in H; destruct (0 <? length)%Z;
    try discriminate H; try (injection H as _ <-; apply notBehind_refl).
  apply IH in H. now apply advanced_notBehind, cons_notBehind.
Qed.

Lemma literal_notBehind (l l' : lexer) (tok : token) :
  literal l = Ok tok l' -> notBehind l l' /\ tokType tok = stringTokenType.
Proof.
  unfold literal, bind, panic, ret, consumeEol. intros H.
  destruct (literalLength_from (reader l) (current l) []) as [lengthBuffer l1|e l1] eqn:E1;
    [|discriminate H].
  apply literalLength_from_notBehind in E1.
  destruct (ParseInt32 lengthBuffer) as [length|err]; [|discriminate H].
  destruct (consumeEol_from (reader l1) (current l1)) as [[] l2|e l2] eqn:E2;
    [|discriminate H].
  apply consumeEol_from_advanced in E2. destruct E2 as (_ & E2 & _).
  destruct (literalBody_from (reader l2) (current l2) length []) as [buffer l3|e l3] eqn:E3;
    [|discriminate H].
  apply literalBody_from_notBehind in E3. injection H as <- <-.
  split; [|reflexivity].
  destruct l as [rd cur], l1 as [rd1 cur1], l2 as [rd2 cur2]. cbn [reader current] in *.
  eapply notBehind_trans; [exact E1|]. eapply notBehind_trans; [exact E2 | exact E3].
Qed.

(** [qstring] reads at least the closing quote. *)
Lemma qstring_from_advanced :
  forall (n : nat) (rd : list byte),
    List.length rd <= n ->
    forall (cur : byte) (buffer : list byte) (tok : token) (l' : lexer),
      qstring_from rd cur buffer = Ok tok l' ->
      advanced (mkLexer rd cur) l' /\ tokType tok = stringTokenType.
Proof.
  induction n as [|n IH]; intros rd Hlen cur buffer tok l' H.
  - destruct rd; [|cbn [List.length] in Hlen; lia].
    cbn in H. destruct (cur == doubleQuote); [discriminate H|].
    destruct (_ || _); [discriminate H|].
    destruct (cur == backslash); discriminate H.
  - destruct rd as [|b rd]; cbn [qstring_from] in H.
    + destruct (cur == doubleQuote); [discriminate H|].
      destruct (_ || _); [discriminate H|].
      destruct (cur == backslash); discriminate H.
    + cbn [List.length] in Hlen.
      destruct (cur == doubleQuote).
      { cbn in H. injection H as <- <-. split; [|reflexivity]. exists []. reflexivity. }
      destruct (_ || _); [discriminate H|].
      destruct (cur == backslash).
      * destruct rd as [|b' rd]; [discriminate H|].
        cbn [List.length] in Hlen.
        apply IH in H; [|lia]. destruct H as [Hadv Hty]. split; [|exact Hty].
        apply cons_notBehind, advanced_notBehind, cons_notBehind, advanced_notBehind.
        exact Hadv.
      * apply IH in H; [|lia]. destruct H as [Hadv Hty]. split; [|exact Hty].
        apply cons_notBehind, advanced_notBehind. exact Hadv.
Qed.

(** The four ways [next] returns a token. *)
Lemma next_cases (flag : unquotedLexerFlag) (l l' : lexer) (tok : token) :
  next flag l = Ok tok l' ->
  exists l1 : lexer,
    skipSpace l = Ok tt l1
    /\ ((current l1 = cr /\ tok = eolToken /\ consumeEol l1 = Ok tt l')
        \/ (current l1 = doubleQuote
            /\ exists l2, consume l1 = Ok tt l2 /\ qstring l2 = Ok tok l')
        \/ (current l1 = leftCurly
            /\ exists l2, consume l1 = Ok tt l2 /\ literal l2 = Ok tok l')
        \/ (current l1 <> cr /\ current l1 <> doubleQuote /\ current l1 <> leftCurly
            /\ unquoted flag l1 = Ok tok l')).
Proof.
  unfold next. unfold bind at 1. intros H.
  destruct (skipSpace l) as [[] l1|e l1]; [|discriminate H].
  exists l1. split; [reflexivity|].
  destruct (current l1 == cr) eqn:Ecr.
  - left. apply eqb_true in Ecr. unfold bind, ret in H.
    destruct (consumeEol l1) as [[] l2|e l2]; [|discriminate H].
    injection H as <- <-. auto.
  - apply Byte.eqb_false in Ecr. destruct (current l1 == doubleQuote) eqn:Eq.
    + right; left. apply eqb_true in Eq. unfold bind in H.
      destruct (consume l1) as [[] l2|e l2]; [|discriminate H]. eauto.
    + apply Byte.eqb_false in Eq. destruct (current l1 == leftCurly) eqn:Eb.
      * right; right; left. apply eqb_true in Eb. unfold bind in H.
        destruct (consume l1) as [[] l2|e l2]; [|discriminate H]. eauto.
      * apply Byte.eqb_false in Eb. right; right; right. auto.
Qed.

Lemma unquoted_advanced (flag : unquotedLexerFlag) (l l' : lexer) (tok : token) :
  unquoted flag l = Ok tok l' -> advanced l l'.
Proof.
  intros H. pose proof H as Hne.
  rewrite unquoted_nonquoted in Hne. apply nonquoted_value_nonempty in Hne.
  rewrite unquoted_nonquoted in H. unfold nonquoted, bind in H.
  destruct (nonquoted_from (exceptionsOf flag) (reader l) (current l) []) as [buffer l0|e l0] eqn:E;
    [|discriminate H].
  destruct (List.length buffer =? 0)%nat; [discriminate H|].
  unfold ret in H. injection H as <- <-. cbn [value] in Hne.
  apply nonquoted_from_inv in E. destruct E as (run & -> & Hs & _).
  cbn [app] in Hne. destruct run as [|c run]; [contradiction|].
  cbn [app] in Hs. injection Hs as _ Hs. exists run. exact Hs.
Qed.

(** X12. Every call of [next] that returns a token has read at least one
    byte, and the cursor it leaves (the lookahead byte and the unread
    input) is a suffix of the input that was unread before: the lexer never
    goes back, never reads a byte twice and never stands still, so a loop of
    [next] over a finite stream ends. *)
Theorem next_advances :
  forall (flag : unquotedLexerFlag) (l l' : lexer) (tok : token),
    next flag l = Ok tok l' ->
    (exists pre : list byte, reader l = pre ++ current l' :: reader l')
    /\ List.length (reader l') < List.length (reader l).
Proof.
  intros flag l l' tok H.
  assert (Hadv : advanced l l').
  { apply next_cases in H. destruct H as (l1 & Hskip & Hcase).
    apply skipSpace_notBehind in Hskip.
    apply (then_advanced l l1 l' Hskip).
    destruct Hcase as [(Hcr & _ & Heol) | [(_ & l2 & Hc & Hq) | [(_ & l2 & Hc & Hl) | (_ & _ & _ & Hu)]]].
    - apply consumeEol_from_advanced in Heol. destruct Heol as (_ & _ & Heol).
      destruct l1 as [rd1 cur1]. cbn [reader current] in *. apply Heol.
      rewrite Hcr. discriminate.
    - apply consume_advanced in Hc. apply (advanced_then l1 l2 l' Hc).
      unfold qstring in Hq.
      apply (qstring_from_advanced (List.length (reader l2)) (reader l2) (le_n _)) in Hq.
      destruct l2. now apply advanced_notBehind.
    - apply consume_advanced in Hc. apply (advanced_then l1 l2 l' Hc).
      now apply literal_notBehind in Hl.
    - now apply unquoted_advanced in Hu. }
  destruct Hadv as [pre Hpre]. unfold stream in Hpre. split; [now exists pre|].
  rewrite Hpre, length_app. cbn [List.length]. lia.
Qed.

Lemma next_advances_witness :
  (exists pre : list byte,
     reader (createLexer (bytes "A1 NOOP")) = pre ++ current (mkLexer (bytes "NOOP") space)
                                                :: reader (mkLexer (bytes "NOOP") space))
  /\ List.length (reader (mkLexer (bytes "NOOP") space))
     < List.length (reader (createLexer (bytes "A1 NOOP"))).
Proof.
  apply (next_advances asTag (createLexer (bytes "A1 NOOP")) (mkLexer (bytes "NOOP") space)
           (mkToken (bytes "A1") stringTokenType)).
  reflexivity.
Defined.

(** X13. [next] returns two kinds of token only: the end-of-line token,
    with the cursor on a line feed, and string tokens; the invalid token is
    never returned. *)
Theorem next_token_kinds :
  forall (flag : unquotedLexerFlag) (l l' : lexer) (tok : token),
    next flag l = Ok tok l' ->
    (tok = eolToken /\ current l' = lf) \/ tokType tok = stringTokenType.
Proof.
  intros flag l l' tok H.
  apply next_cases in H. destruct H as (l1 & _ & Hcase).
  destruct Hcase as [(_ & -> & Heol) | [(_ & l2 & _ & Hq) | [(_ & l2 & _ & Hl) | (_ & _ & _ & Hu)]]].
  - left. split; [reflexivity|].
    now apply consumeEol_from_advanced in Heol.
  - right. unfold qstring in Hq.
    now apply (qstring_from_advanced (List.length (reader l2)) (reader l2) (le_n _)) in Hq.
  - right. now apply literal_notBehind in Hl.
  - right. now apply unquoted_token_kind in Hu.
Qed.

Lemma next_token_kinds_witness :
  (eolToken = eolToken /\ current (mkLexer (bytes "A2") lf) = lf)
  \/ tokType eolToken = stringTokenType.
Proof.
  apply (next_token_kinds asTag (mkLexer ([cr; lf] ++ bytes "A2") space)
           (mkLexer (bytes "A2") lf) eolToken).
  reflexivity.
Defined.

(** *** A command line *)



(** *** The tag mode against the astring mode *)

Lemma accepted_tag_astring (c : byte) :
  accepted tagExceptionsChar c -> accepted astringExceptionsChar c.
Proof.
  intros [Hp Hn]. split; [exact Hp|]. intros Hin. apply Hn.
  unfold tagExceptionsChar. unfold astringExceptionsChar in Hin.
  cbn [In] in *. tauto.
Qed.

Lemma rejected_tag_astring (c : byte) :
  ~ accepted tagExceptionsChar c -> c <> plus -> ~ accepted astringExceptionsChar c.
Proof.
  intros Hna Hplus [Hp Hn]. apply Hna. split; [exact Hp|]. intros Hin. apply Hn.
  unfold astringExceptionsChar. unfold tagExceptionsChar in Hin.
  cbn [In] in *.
  repeat (destruct Hin as [Hin | Hin]; [tauto|]).
  destruct Hin as [Hin | []]. congruence.
Qed.

(** X19. The tag mode is the astring mode with the plus sign shut out:
    whatever token [next] returns in [asTag] mode, with the cursor left on a
    byte other than a plus sign, [next] in [asAString] mode returns the same
    token from the same state and leaves the same cursor. *)
Theorem tag_token_is_astring_token :
  forall (l l' : lexer) (tok : token),
    next asTag l = Ok tok l' ->
    current l' <> plus ->
    next asAString l = Ok tok l'.
Proof.
  intros l l' tok H Hplus.
  apply next_cases in H. destruct H as (l1 & Hskip & Hcase).
  destruct Hcase as [(Hcr & -> & Heol)
                    | [(Hq & l2 & Hc & Hqs)
                    | [(Hb & l2 & Hc & Hlit)
                    | (Hcr & Hq & Hb & Hu)]]].
  - rewrite (next_at_cr asAString l l1 Hskip Hcr). unfold bind. now rewrite Heol.
  - rewrite (next_at_quote asAString l l1 Hskip Hq). unfold bind. now rewrite Hc.
  - rewrite (next_at_curly asAString l l1 Hskip Hb). unfold bind. now rewrite Hc.
  - rewrite (next_at_other asAString l l1 Hskip Hcr Hq Hb).
    pose proof Hu as Hne.
    rewrite unquoted_nonquoted in Hne. apply nonquoted_value_nonempty in Hne.
    rewrite unquoted_nonquoted in Hu. unfold nonquoted, bind in Hu.
    destruct (nonquoted_from (exceptionsOf asTag) (reader l1) (current l1) [])
      as [buffer l0|e l0] eqn:E; [|discriminate Hu].
    destruct (List.length buffer =? 0)%nat; [discriminate Hu|].
    unfold ret in Hu. injection Hu as <- <-. cbn [value] in Hne.
    apply nonquoted_from_inv in E. destruct E as (run & -> & Hs & Hall & Hstop).
    cbn [app] in Hne |- *. destruct run as [|c run]; [contradiction|].
    destruct l1 as [rd1 cur1], l0 as [rd0 cur0]. unfold stream in Hs.
    cbn [reader current app] in Hs, Hstop, Hplus. injection Hs as -> ->.
    apply (unquoted_run asAString c run cur0 rd0).
    + eapply Forall_impl; [|exact Hall]. exact accepted_tag_astring.
    + now apply rejected_tag_astring.
Qed.

(** A tag that a space ends is the same token as an astring. *)
Lemma tag_token_is_astring_token_witness :
  next asAString (createLexer (bytes "A1 NOOP"))
  = Ok (mkToken (bytes "A1") stringTokenType) (mkLexer (bytes "NOOP") space).
Proof.
  apply (tag_token_is_astring_token (createLexer (bytes "A1 NOOP"))
           (mkLexer (bytes "NOOP") space) (mkToken (bytes "A1") stringTokenType)).
  - reflexivity.
  - discriminate.
Defined.

End LexerPaths.

(* ================================================================== *)
(** ** More about the session: sequences of operations *)
(* ================================================================== *)

Module SessionPaths.

Import Session Fixtures SessionFacts.
Local Open Scope string_scope.
Local Unset Implicit Arguments.

Lemma step_identity (W : Type) (o : op) (s : session W) (w : W) :
  id (snd (fst (step o s w))) = id s
  /\ config (snd (fst (step o s w))) = config s
  /\ (mailbox s <> None -> mailbox (snd (fst (step o s w))) <> None).
Proof.
  destruct o as [name | resp]; unfold step.
  - unfold selectMailbox.
    destruct (GetMailbox _ name w) as [[[m|] [e|]] w']; simpl;
      repeat split; try tauto; discriminate.
  - destruct (addMailboxInfo s resp w) as [[r resp'] w']. simpl. tauto.
Qed.

(** X15. No sequence of [selectMailbox] and [addMailboxInfo] changes the
    id or the configuration of a session, whatever session it starts from,
    and a session that holds a mailbox holds one after any such sequence: a
    mailbox is replaced by a later successful [selectMailbox], never
    cleared, also not by a lookup that fails or finds nothing. *)
Theorem run_keeps_identity_and_mailbox :
  forall (W : Type) (ops : list op) (s : session W) (w : W),
    id (sessionOf (run ops s w)) = id s
    /\ config (sessionOf (run ops s w)) = config s
    /\ (mailbox s <> None -> mailbox (sessionOf (run ops s w)) <> None).
Proof.
  intros W ops. unfold sessionOf.
  induction ops as [|o ops IH]; intros s w; cbn [run].
  - cbn [fst snd]. tauto.
  - pose proof (step_identity W o s w) as (Hid & Hcfg & Hmb).
    destruct (step o s w) as [[ev s1] w1]. cbn [fst snd] in Hid, Hcfg, Hmb.
    specialize (IH s1 w1). destruct IH as (IHid & IHcfg & IHmb).
    destruct (run ops s1 w1) as [[evs s2] w2]. cbn [fst snd] in *.
    repeat split; [congruence | congruence | tauto].
Qed.

(** A selected session, then a lookup that fails and one that finds nothing. *)
Lemma run_keeps_identity_and_mailbox_witness :
  mailbox (sessionOf (run [SelectMailbox "drafts"; AddMailboxInfo emptyResponse]
                          (mkSession 7 authenticated (Some inbox) (mkConfig emptyStore)) tt))
  <> None.
Proof.
  apply (run_keeps_identity_and_mailbox unit
           [SelectMailbox "drafts"; AddMailboxInfo emptyResponse]
           (mkSession 7 authenticated (Some inbox) (mkConfig emptyStore)) tt).
  discriminate.
Defined.

Lemma addMailboxInfo_panics_iff (W : Type) (s : session W) (resp : response) (w : W) :
  fst (fst (addMailboxInfo s resp w)) = NilDereference <-> mailbox s = None.
Proof.
  unfold addMailboxInfo. destruct (mailbox s) as [mbox|].
  - destruct (FirstUnseen _ _ w) as [[v1 [e1|]] w1];
      [cbn [fst]; split; discriminate|].
    destruct (TotalMessages _ _ w1) as [[v2 [e2|]] w2];
      [cbn [fst]; split; discriminate|].
    destruct (RecentMessages _ _ w2) as [[v3 [e3|]] w3];
      [cbn [fst]; split; discriminate|].
    destruct (NextUid _ _ w3) as [[v4 [e4|]] w4];
      cbn [fst]; split; discriminate.
  - cbn [fst]. tauto.
Qed.

(** X16. On a session made by [createSession] and taken through any
    sequence of operations, [addMailboxInfo] panics on a nil mailbox exactly
    when no [selectMailbox] of the sequence returned true; after one that
    did, it always returns, with an error or without. *)
Theorem addMailboxInfo_panics_exactly_before_select :
  forall (W : Type) (ops : list op) (id : Z) (cfg : Config W) (w w2 : W) (resp : response),
    fst (fst (addMailboxInfo (sessionOf (run ops (createSession id cfg) w)) resp w2))
    = NilDereference
    <-> ~ (exists err, In (SelectReturned true err)
                          (eventsOf (run ops (createSession id cfg) w))).
Proof.
  intros W ops id cfg w w2 resp.
  rewrite addMailboxInfo_panics_iff.
  destruct (run_session ops (createSession id cfg) w) as [_ Hmb].
  cbn [mailbox createSession] in Hmb. split.
  - intros Hnone Hex. apply Hmb; [right; exact Hex | exact Hnone].
  - intros Hno. destruct (mailbox (sessionOf (run ops (createSession id cfg) w))) eqn:E;
      [|reflexivity].
    exfalso. assert (Hsome : Some m <> None) by discriminate.
    apply Hmb in Hsome. destruct Hsome as [H | H]; [now apply H | now apply Hno].
Qed.

(** X17. Whatever the store answers and whether the session holds a
    mailbox or not, [addMailboxInfo] leaves the tag and the message of the
    response alone and keeps the untagged lines it found; it appends five
    lines when it returns without error, and returns the response exactly as
    it was given in every other case. *)
Theorem addMailboxInfo_response_frame :
  forall (W : Type) (s : session W) (resp : response) (w : W),
    tag (snd (fst (addMailboxInfo s resp w))) = tag resp
    /\ message (snd (fst (addMailboxInfo s resp w))) = message resp
    /\ ((fst (fst (addMailboxInfo s resp w)) = Returned None
         /\ exists l1 l2 l3 l4 l5 : string,
              untagged (snd (fst (addMailboxInfo s resp w)))
              = (untagged resp ++ [l1; l2; l3; l4; l5])%list)
        \/ (fst (fst (addMailboxInfo s resp w)) <> Returned None
            /\ snd (fst (addMailboxInfo s resp w)) = resp)).
Proof.
  intros W s resp w. unfold addMailboxInfo.
  destruct (mailbox s) as [mbox|];
    [|cbn [fst snd]; repeat split; right; split; [discriminate | reflexivity]].
  destruct (FirstUnseen _ _ w) as [[v1 [e1|]] w1];
    [cbn [fst snd]; repeat split; right; split; [discriminate | reflexivity]|].
  destruct (TotalMessages _ _ w1) as [[v2 [e2|]] w2];
    [cbn [fst snd]; repeat split; right; split; [discriminate | reflexivity]|].
  destruct (RecentMessages _ _ w2) as [[v3 [e3|]] w3];
    [cbn [fst snd]; repeat split; right; split; [discriminate | reflexivity]|].
  destruct (NextUid _ _ w3) as [[v4 [e4|]] w4];
    [cbn [fst snd]; repeat split; right; split; [discriminate | reflexivity]|].
  cbn [fst snd]. unfold extra. cbn [tag message untagged].
  repeat split. left. split; [reflexivity|].
  rewrite <- !app_assoc. cbn [app]. do 5 eexists. reflexivity.
Qed.

(** *** The dummy store of the tests *)

(** X18. [TestMailstore.GetMailboxes] never fails and lists direct
    children only: the path of every mailbox it returns is the path it was
    asked for with one more name at its end; under any path of two names or
    more, and under any single name but inbox, it lists nothing. *)
Theorem GetMailboxes_lists_children :
  forall path : list string,
    snd (GetMailboxes path) = None
    /\ (forall m : ListedMailbox,
          In m (fst (GetMailboxes path)) ->
          exists child : string, ListedPath m = (path ++ [child])%list)
    /\ (path <> [] -> path <> ["inbox"] -> fst (GetMailboxes path) = []).
Proof.
  intros path. unfold GetMailboxes.
  destruct path as [|p [|q path]]; cbn [List.length Nat.eqb andb nth].
  - split; [reflexivity|]. split; [|congruence].
    intros m [<- | [<- | []]]; eexists; reflexivity.
  - destruct (String.eqb p "inbox") eqn:E; cbn [fst snd].
    + apply String.eqb_eq in E. subst p.
      split; [reflexivity|]. split; [|congruence].
      intros m [<- | []]. eexists; reflexivity.
    + split; [reflexivity|]. split; [intros m [] | reflexivity].
  - cbn [fst snd]. split; [reflexivity|]. split; [intros m [] | reflexivity].
Qed.

End SessionPaths.
